(** * Frontier SDK: the request/response engine and the embedding check

    A shallow embedding of [src/sdk.ts] (class [FrontierSDK]) and of the two
    variants of [ui-utils/detection.ts] ([isInFrontierApp]), with the
    properties the specification states about them.

    The engine is event driven and single threaded.  Its state is the
    private fields of the class together with what the browser keeps for it:
    the armed [setTimeout] timers, the messages posted to the parent window
    and the calls made so far to the [resolve]/[reject] functions of the
    promises that [request] returned. *)

From Stdlib Require Import Ascii.
From stdpp Require Import base numbers strings list gmap fin_maps pretty.

(** ** JavaScript values that travel in messages *)

Module JS.

(** The data of a message event is whatever the sender posted; the cast
    [event.data as SDKResponse] is erased at run time.  Messages carry
    primitive values and plain objects.  [VNum z] is the integer valued
    number [z]. *)
#[warnings="-register-all"] Inductive Value : Type :=
| VUndefined
| VNull
| VBool (b : bool)
| VNum (z : Z)
| VStr (s : string)
| VObj (fields : list (string * Value)).

(** Abrupt completion of an expression: a [TypeError] is thrown. *)
Inductive Completion (A : Type) : Type :=
| Return (a : A)
| Throw.
Arguments Return {A} a.
Arguments Throw {A}.

Definition bind {A B} (c : Completion A) (k : A → Completion B) : Completion B :=
  match c with
  | Return a => k a
  | Throw => Throw
  end.

Fixpoint assoc (k : string) (fields : list (string * Value)) : option Value :=
  match fields with
  | [] => None
  | (k', v) :: rest => if String.eqb k k' then Some v else assoc k rest
  end.

(** [v.k] for the properties that the engine reads ([requestId], [type],
    [result], [error]): reading a property of [undefined] or [null] throws;
    these properties exist on no primitive value and on no prototype, so
    on an object they are own properties or read as [undefined]. *)
Definition get (v : Value) (k : string) : Completion Value :=
  match v with
  | VUndefined | VNull => Throw
  | VObj fields => Return (default VUndefined (assoc k fields))
  | _ => Return VUndefined
  end.

(** [ToString]: an integer prints in decimal (as it does below 10^21); a
    plain object prints through [Object.prototype.toString] unless it has an
    own (data, hence not callable) [toString] property, in which case the
    conversion throws. *)
Definition ToString (v : Value) : Completion string :=
  match v with
  | VUndefined => Return "undefined"
  | VNull => Return "null"
  | VBool true => Return "true"
  | VBool false => Return "false"
  | VNum z => Return (pretty z)
  | VStr s => Return s
  | VObj fields =>
      match assoc "toString" fields with
      | Some _ => Throw
      | None => Return "[object Object]"
      end
  end.

(** An [Error] object, as far as callers look at it. *)
Record Error : Type := mkError { message : string }.

(** [new Error(x)]: no message for [undefined], else [ToString(x)]. *)
Definition new_Error (x : Value) : Completion Error :=
  match x with
  | VUndefined => Return (mkError "")
  | _ => bind (ToString x) (λ s, Return (mkError s))
  end.

(** [x === 'lit']. *)
Definition strict_eq_str (x : Value) (lit : string) : bool :=
  match x with
  | VStr s => String.eqb s lit
  | _ => false
  end.

End JS.

Import JS.

(** ** Request identifiers *)

(** The template literal [`${Date.now()}-${this.requestId++}`]: both numbers
    are integers and print in decimal. *)
Definition mkId (now : Z) (counter : N) : string :=
  pretty now +:+ "-" +:+ pretty counter.

Fixpoint dashless (s : string) : Prop :=
  match s with
  | EmptyString => True
  | String c r => c ≠ "-"%char ∧ dashless r
  end.

(** ** The browsing context the engine runs in *)

(** Window objects are compared by identity only. *)
Definition Window : Type := nat.

Record Browser : Type := {
  self : Window;                          (* window, window.self *)
  parent : Window;                        (* window.parent *)
  top : Window;                           (* window.top *)
  referrer : string;                      (* document.referrer *)
  URL_origin : string → Completion string; (* new URL(x).origin *)
  parent_location_origin : Completion string
    (* window.parent.location.origin, which throws across origins *)
}.

Record MessageEvent : Type := {
  source : option Window;                 (* event.source, or null *)
  origin : string;                        (* event.origin *)
  data : Value                            (* event.data *)
}.

(** ** The engine: [class FrontierSDK] *)

Module FrontierSDK.

(** How a call to [resolve] or [reject] settles a promise. *)
Inductive Settlement : Type :=
| Resolved (result : Value)
| Rejected (error : Error).

(** A timer armed by [setTimeout]: the closure keeps the identifier and the
    [reject] function of the call that armed it. *)
Record Timer : Type := {
  deadline : N;
  timer_requestId : string;
  timer_call : N
}.

(** [target.postMessage(message, targetOrigin)]. *)
Record Posted : Type := {
  target : Window;
  posted : Value;
  targetOrigin : string
}.

(** The [resolve]/[reject] pair stored in [pendingRequests] belongs to the
    promise of one call of [request]; it is named by the number of that
    call, which is the value of the counter when the call was made.
    [settled] lists the calls made to those functions, oldest first, and
    [clock] is the time in milliseconds on the timer clock since the
    instance was built.  The counter [requestId] starts at 0 and only ever
    grows by one; on such values the arithmetic of JavaScript numbers is
    that of the natural numbers (up to 2^53), which is how it is followed
    here. *)
Record State : Type := {
  requestId : N;
  pendingRequests : gmap string N;
  listening : bool;
  timers : list Timer;
  clock : N;
  outbox : list Posted;
  settled : list (N * Settlement)
}.

Definition set_pendingRequests (m : gmap string N) (s : State) : State :=
  {| requestId := requestId s; pendingRequests := m; listening := listening s;
     timers := timers s; clock := clock s; outbox := outbox s;
     settled := settled s |}.

(** [resolve(v)] or [reject(e)] of call [p] is invoked. *)
Definition settle (p : N) (o : Settlement) (s : State) : State :=
  {| requestId := requestId s; pendingRequests := pendingRequests s;
     listening := listening s; timers := timers s; clock := clock s;
     outbox := outbox s; settled := settled s ++ [(p, o)] |}.

Definition postMessage (w : Window) (m : Value) (o : string) (s : State) : State :=
  {| requestId := requestId s; pendingRequests := pendingRequests s;
     listening := listening s; timers := timers s; clock := clock s;
     outbox := outbox s ++ [{| target := w; posted := m; targetOrigin := o |}];
     settled := settled s |}.

(** A promise takes the first settlement and ignores later ones. *)
Definition outcome (p : N) (s : State) : option Settlement :=
  snd <$> head (filter (λ x, x.1 = p) (settled s)).

(** How often the completion functions of call [p] were invoked. *)
Definition settlements (p : N) (s : State) : nat :=
  length (filter (λ x, x.1 = p) (settled s)).

(** [Map.prototype.get] and [delete] with whatever value the message holds
    as key: the keys of the table are strings. *)
Definition Map_get (m : gmap string N) (k : Value) : option N :=
  match k with
  | VStr id => m !! id
  | _ => None
  end.

Definition Map_delete (k : Value) (m : gmap string N) : gmap string N :=
  match k with
  | VStr id => delete id m
  | _ => m
  end.

(** [notifyReady] *)
Definition notifyReady (env : Browser) (s : State) : State :=
  postMessage (parent env)
    (VObj [("type", VStr "app:ready"); ("payload", VNull)]) "*" s.

(** [new FrontierSDK()]: registers the listener, then announces readiness. *)
Definition constructor (env : Browser) : State :=
  notifyReady env
    {| requestId := 0; pendingRequests := ∅; listening := true;
       timers := []; clock := 0; outbox := []; settled := [] |}.

(** [handleMessage] *)
Definition handleMessage (env : Browser) (event : MessageEvent) (s : State)
  : Completion State :=
  if negb (bool_decide (source event = Some (parent env))) then Return s
  else
    let response := data event in
    bind (get response "requestId") (λ key,
      match Map_get (pendingRequests s) key with
      | Some pending =>
          bind (get response "type") (λ type,
          bind (if strict_eq_str type "error"
                then bind (get response "error") (λ e,
                     bind (new_Error e) (λ err,
                     Return (settle pending (Rejected err) s)))
                else bind (get response "result") (λ r,
                     Return (settle pending (Resolved r) s))) (λ s',
          bind (get response "requestId") (λ key',
          Return (set_pendingRequests
                    (Map_delete key' (pendingRequests s')) s'))))
      | None => Return s
      end).

(** The identifier and the call number that [request] will use next. *)
Definition next_id (now : Z) (s : State) : string := mkId now (requestId s).

(** The timer callback of [request]. *)
Definition on_timeout (tm : Timer) (s : State) : State :=
  if bool_decide (is_Some (pendingRequests s !! timer_requestId tm)) then
    settle (timer_call tm) (Rejected (mkError "Request timeout"))
      (set_pendingRequests (delete (timer_requestId tm) (pendingRequests s)) s)
  else s.

(** [request(type, payload)], called when [Date.now()] reads [now]; an
    omitted payload is [undefined]. *)
Definition request (env : Browser) (now : Z) (type : string) (payload : Value)
    (s : State) : State :=
  let id := next_id now s in
  let call := requestId s in
  let msg := VObj [("type", VStr type); ("requestId", VStr id);
                   ("payload", payload)] in
  {| requestId := requestId s + 1;
     pendingRequests := <[id := call]> (pendingRequests s);
     listening := listening s;
     timers := timers s ++
       [{| deadline := clock s + 30000; timer_requestId := id;
           timer_call := call |}];
     clock := clock s;
     outbox := outbox s ++
       [{| target := parent env; posted := msg; targetOrigin := "*" |}];
     settled := settled s |}.

(** [destroy] *)
Definition destroy (s : State) : State :=
  {| requestId := requestId s; pendingRequests := ∅; listening := false;
     timers := timers s; clock := clock s; outbox := outbox s;
     settled := settled s |}.

(** *** The event loop *)

Definition due (now : N) (tm : Timer) : bool := (deadline tm <=? now)%N.

(** The event loop takes the timers that are due at time [now] off its
    list before it runs them. *)
Definition take_due (now : N) (s : State) : State :=
  {| requestId := requestId s; pendingRequests := pendingRequests s;
     listening := listening s;
     timers := filter (λ tm, due now tm = false) (timers s);
     clock := now; outbox := outbox s; settled := settled s |}.

(** [dt] milliseconds pass; the timers that are due run, oldest first. *)
Definition elapse (dt : N) (s : State) : State :=
  let now := (clock s + dt)%N in
  foldl (λ acc tm, on_timeout tm acc) (take_due now s)
    (filter (λ tm, due now tm = true) (timers s)).

(** A message event reaches the window: the listener runs if it is still
    registered; an exception it throws is reported and changes nothing. *)
Definition dispatch (env : Browser) (event : MessageEvent) (s : State) : State :=
  if listening s then
    match handleMessage env event s with
    | Return s' => s'
    | Throw => s
    end
  else s.

Inductive Event : Type :=
| EvRequest (now : Z) (type : string) (payload : Value)
| EvMessage (event : MessageEvent)
| EvElapse (dt : N)
| EvDestroy.

Definition step (env : Browser) (s : State) (e : Event) : State :=
  match e with
  | EvRequest now type payload => request env now type payload s
  | EvMessage event => dispatch env event s
  | EvElapse dt => elapse dt s
  | EvDestroy => destroy s
  end.

Definition run (env : Browser) (s : State) (es : list Event) : State :=
  foldl (step env) s es.

(** The identifiers sent so far, oldest first. *)
Definition sent_id (p : Posted) : option string :=
  match get (posted p) "requestId" with
  | Return (VStr id) => Some id
  | _ => None
  end.

Definition sent_ids (s : State) : list string := omap sent_id (outbox s).

End FrontierSDK.

Import FrontierSDK.

(** ** The embedding check: [ui-utils/detection.ts]

    The repository holds this file in two variants.  [Detection] is the one
    that compares origins with the allow list; [DetectionTop] is the one that
    only asks whether the window is framed. *)

Module Detection.

Definition ALLOWED_ORIGINS : list string :=
  [ "http://localhost:5173";
    "https://sandbox.wallet.frontiertower.io";
    "https://alpha.wallet.frontiertower.io";
    "https://beta.wallet.frontiertower.io";
    "https://wallet.frontiertower.io" ].

(** [ALLOWED_ORIGINS.includes(x)] *)
Definition includes (l : list string) (x : string) : bool :=
  bool_decide (x ∈ l).

(** A string is truthy when it is not empty. *)
Definition truthy (x : string) : bool := negb (String.eqb x "").

(** The [try] block of [isInFrontierApp]: [Some b] when it returns [b],
    [None] when control leaves it at its end. *)
Definition isInFrontierApp_try (env : Browser) : Completion (option bool) :=
  bind (if truthy (referrer env)
        then bind (URL_origin env (referrer env)) (λ o, Return (Some o))
        else Return None) (λ parentOrigin,
    if match parentOrigin with
       | Some o => truthy o && includes ALLOWED_ORIGINS o
       | None => false
       end
    then Return (Some true)
    else
      bind (parent_location_origin env) (λ o,
        if truthy o && includes ALLOWED_ORIGINS o
        then Return (Some true)
        else Return None)).

Definition isInFrontierApp (env : Browser) : Completion bool :=
  if bool_decide (parent env = self env) then Return false
  else
    match isInFrontierApp_try env with
    | Return (Some b) => Return b
    | Return None => Return false
    | Throw =>
        if truthy (referrer env)
        then bind (URL_origin env (referrer env)) (λ referrerOrigin,
             Return (includes ALLOWED_ORIGINS referrerOrigin))
        else Return false
    end.

End Detection.

Module DetectionTop.

(** [window.self !== window.top] *)
Definition isInFrontierApp (env : Browser) : bool :=
  negb (bool_decide (self env = top env)).

End DetectionTop.

(** ** Notions used to state the properties *)

(** The settlement the handler derives from the data of a message. *)
Definition reply (response : Value) : Completion Settlement :=
  bind (get response "type") (λ type,
    if strict_eq_str type "error"
    then bind (get response "error") (λ e,
         bind (new_Error e) (λ err, Return (Rejected err)))
    else bind (get response "result") (λ r, Return (Resolved r))).

(** The state after the completion functions of call [p], tracked under
    [id], were invoked with [o]. *)
Definition completed (id : string) (p : N) (o : Settlement) (s : State) : State :=
  set_pendingRequests (delete id (pendingRequests s)) (settle p o s).

Definition unsettled (p : N) (s : State) : Prop := p ∉ (settled s).*1.

(** A timer whose closure belongs to a call made before. *)
Definition timer_of_past_call (tm : Timer) (s : State) : Prop :=
  (∃ t, timer_requestId tm = mkId t (timer_call tm))
  ∧ (timer_call tm < requestId s)%N.

Record Inv (s : State) : Prop := {
  inv_pending k q :
    pendingRequests s !! k = Some q →
    (∃ t, k = mkId t q) ∧ (q < requestId s)%N ∧ unsettled q s;
  inv_pending_inj k k' q :
    pendingRequests s !! k = Some q → pendingRequests s !! k' = Some q → k = k';
  inv_timers tm :
    tm ∈ timers s → timer_of_past_call tm s ∧ (clock s < deadline tm)%N;
  inv_timers_NoDup : NoDup (timer_call <$> timers s);
  inv_settled q : q ∈ (settled s).*1 → (q < requestId s)%N;
  inv_once : NoDup (settled s).*1;
  inv_sent id : id ∈ sent_ids s → ∃ t c, id = mkId t c ∧ (c < requestId s)%N;
  inv_sent_NoDup : NoDup (sent_ids s)
}.

(** The states an instance goes through. *)
Definition reachable (env : Browser) (s : State) : Prop :=
  ∃ es, s = run env (constructor env) es.


(** [id] was generated by an earlier call and is not in the table. *)
Definition retired (id : string) (s : State) : Prop :=
  pendingRequests s !! id = None
  ∧ ∃ t c, id = mkId t c ∧ (c < requestId s)%N.


(** The identifiers that the calls of [request] in a run generate, in the
    order of the calls. *)
Fixpoint generated (env : Browser) (s : State) (es : list Event) : list string :=
  match es with
  | [] => []
  | e :: es' =>
      match e with
      | EvRequest now _ _ => [next_id now s]
      | _ => []
      end ++ generated env (step env s e) es'
  end.

Definition is_request (e : Event) : bool :=
  match e with
  | EvRequest _ _ _ => true
  | _ => false
  end.

(** The time that passes during a run. *)
Fixpoint elapsed (es : list Event) : N :=
  match es with
  | [] => 0
  | EvElapse dt :: es' => dt + elapsed es'
  | _ :: es' => elapsed es'
  end.

(** A message from the parent window that names [id]. *)
Definition names (id : string) (event : MessageEvent) : bool :=
  match get (data event) "requestId" with
  | Return (VStr k) => String.eqb k id
  | _ => false
  end.

Definition answers (env : Browser) (id : string) (e : Event) : bool :=
  match e with
  | EvMessage event =>
      bool_decide (source event = Some (parent env)) && names id event
  | _ => false
  end.

Definition is_destroy (e : Event) : bool :=
  match e with
  | EvDestroy => true
  | _ => false
  end.

(** A run in which nothing answers [id] and the instance is not destroyed. *)
Definition unanswered (env : Browser) (id : string) (es : list Event) : bool :=
  forallb (λ e, negb (answers env id e) && negb (is_destroy e)) es.

(** The [error] field of a message is not an object; [SDKResponse] declares
    it as an optional string. *)
Definition primitive_error (response : Value) : bool :=
  match get response "error" with
  | Return (VObj _) => false
  | _ => true
  end.


(** Call [p] was dropped by [destroy]: the listener is gone, the call has
    no settlement and no entry of the table holds its completion functions. *)
Definition abandoned (p : N) (s : State) : Prop :=
  listening s = false ∧ unsettled p s ∧ (p < requestId s)%N
  ∧ ∀ k, pendingRequests s !! k ≠ Some p.

(** The call that armed timer [tm] is tracked and the timer is armed. *)
Definition waiting (tm : Timer) (s : State) : Prop :=
  pendingRequests s !! timer_requestId tm = Some (timer_call tm)
  ∧ tm ∈ timers s.

(** The call that armed timer [tm] was rejected by the timer. *)
Definition timed_out (tm : Timer) (s : State) : Prop :=
  retired (timer_requestId tm) s
  ∧ (timer_call tm, Rejected (mkError "Request timeout")) ∈ settled s
  ∧ (deadline tm ≤ clock s)%N.

(** ** Sample contexts and messages *)

(** A browser that knows the origin of three addresses. *)
Definition sample_origin (url : string) : Completion string :=
  if String.eqb url "https://wallet.frontiertower.io/apps/test"
  then Return "https://wallet.frontiertower.io"
  else if String.eqb url "https://evil.example/"
  then Return "https://evil.example"
  else if String.eqb url "http://localhost:5173/"
  then Return "http://localhost:5173"
  else Throw.

(** Window 1 framed by window 0, the production wallet, on another origin. *)
Definition wallet_env : Browser :=
  {| self := 1; parent := 0; top := 0;
     referrer := "https://wallet.frontiertower.io/apps/test";
     URL_origin := sample_origin; parent_location_origin := Throw |}.

(** Window 1 framed by window 0, a page of [https://evil.example]. *)
Definition evil_env : Browser :=
  {| self := 1; parent := 0; top := 0;
     referrer := "https://evil.example/";
     URL_origin := sample_origin; parent_location_origin := Throw |}.

(** A frame served from the development origin inside a page of the same
    origin, reached by a link on [https://evil.example]. *)
Definition local_env : Browser :=
  {| self := 1; parent := 0; top := 0;
     referrer := "https://evil.example/";
     URL_origin := sample_origin;
     parent_location_origin := Return "http://localhost:5173" |}.

(** The context of the repository's detection tests: [window.parent] is
    replaced by another object while [window.top] is the window itself. *)
Definition test_env : Browser :=
  {| self := 0; parent := 1; top := 0;
     referrer := "https://wallet.frontiertower.io/apps/test";
     URL_origin := sample_origin; parent_location_origin := Throw |}.

(** A window that is not framed. *)
Definition standalone_env : Browser :=
  {| self := 0; parent := 0; top := 0; referrer := "";
     URL_origin := sample_origin; parent_location_origin := Throw |}.

(** A window two levels below the top window. *)
Definition nested_env : Browser :=
  {| self := 2; parent := 1; top := 0;
     referrer := "https://evil.example/";
     URL_origin := sample_origin; parent_location_origin := Throw |}.

Definition response_msg (id : string) (result : Value) : Value :=
  VObj [("type", VStr "response"); ("requestId", VStr id); ("result", result)].

Definition error_msg (id : string) (text : string) : Value :=
  VObj [("type", VStr "error"); ("requestId", VStr id); ("error", VStr text)].

Definition from_window (w : Window) (o : string) (d : Value) : MessageEvent :=
  {| source := Some w; origin := o; data := d |}.

(** ** [getParentOrigin]

    The function has the same text in both variants of
    [ui-utils/detection.ts].  Its [try] block returns an origin or is left at
    its end ([None]); the function then returns [null]. *)

Definition getParentOrigin_try (env : Browser) : Completion (option string) :=
  if negb (bool_decide (parent env = self env)) then
    if Detection.truthy (referrer env)
    then bind (URL_origin env (referrer env)) (λ o, Return (Some o))
    else bind (parent_location_origin env) (λ o, Return (Some o))
  else Return None.

Definition getParentOrigin (env : Browser) : Completion (option string) :=
  match getParentOrigin_try env with
  | Return r => Return r
  | Throw =>
      if Detection.truthy (referrer env)
      then bind (URL_origin env (referrer env)) (λ o, Return (Some o))
      else Return None
  end.

(** ** The facades: [access/storage.ts], [access/chain.ts], [access/user.ts]
    and the methods of [access/wallet.ts] that take no argument

    Every method hands a fixed method name and a payload built from its
    arguments to [request] and returns the promise it gets. *)

Module StorageAccess.

Definition get (env : Browser) (now : Z) (key : string) (s : State) : State :=
  request env now "storage:get" (VObj [("key", VStr key)]) s.

Definition set (env : Browser) (now : Z) (key : string) (value : Value)
    (s : State) : State :=
  request env now "storage:set" (VObj [("key", VStr key); ("value", value)]) s.

Definition remove (env : Browser) (now : Z) (key : string) (s : State) : State :=
  request env now "storage:remove" (VObj [("key", VStr key)]) s.

Definition clear (env : Browser) (now : Z) (s : State) : State :=
  request env now "storage:clear" VUndefined s.

End StorageAccess.

Module ChainAccess.

Definition getCurrentNetwork (env : Browser) (now : Z) (s : State) : State :=
  request env now "chain:getCurrentNetwork" VUndefined s.

Definition getAvailableNetworks (env : Browser) (now : Z) (s : State) : State :=
  request env now "chain:getAvailableNetworks" VUndefined s.

Definition switchNetwork (env : Browser) (now : Z) (network : string)
    (s : State) : State :=
  request env now "chain:switchNetwork" (VObj [("network", VStr network)]) s.

Definition getCurrentChainConfig (env : Browser) (now : Z) (s : State) : State :=
  request env now "chain:getCurrentChainConfig" VUndefined s.

End ChainAccess.

Module UserAccess.

Definition getDetails (env : Browser) (now : Z) (s : State) : State :=
  request env now "user:getDetails" VUndefined s.

Definition getProfile (env : Browser) (now : Z) (id : Z) (s : State) : State :=
  request env now "user:getProfile" (VObj [("id", VNum id)]) s.

End UserAccess.

Module WalletAccess.

Definition getBalance (env : Browser) (now : Z) (s : State) : State :=
  request env now "wallet:getBalance" VUndefined s.

Definition getBalanceFormatted (env : Browser) (now : Z) (s : State) : State :=
  request env now "wallet:getBalanceFormatted" VUndefined s.

Definition getAddress (env : Browser) (now : Z) (s : State) : State :=
  request env now "wallet:getAddress" VUndefined s.

Definition getSmartAccount (env : Browser) (now : Z) (s : State) : State :=
  request env now "wallet:getSmartAccount" VUndefined s.

End WalletAccess.

(** A call of one of the facade methods, with its arguments. *)
Inductive FacadeCall : Type :=
| Storage_get (key : string)
| Storage_set (key : string) (value : Value)
| Storage_remove (key : string)
| Storage_clear
| Chain_getCurrentNetwork
| Chain_getAvailableNetworks
| Chain_switchNetwork (network : string)
| Chain_getCurrentChainConfig
| User_getDetails
| User_getProfile (id : Z)
| Wallet_getBalance
| Wallet_getBalanceFormatted
| Wallet_getAddress
| Wallet_getSmartAccount.

Definition invoke (env : Browser) (now : Z) (c : FacadeCall) (s : State) : State :=
  match c with
  | Storage_get key => StorageAccess.get env now key s
  | Storage_set key value => StorageAccess.set env now key value s
  | Storage_remove key => StorageAccess.remove env now key s
  | Storage_clear => StorageAccess.clear env now s
  | Chain_getCurrentNetwork => ChainAccess.getCurrentNetwork env now s
  | Chain_getAvailableNetworks => ChainAccess.getAvailableNetworks env now s
  | Chain_switchNetwork network => ChainAccess.switchNetwork env now network s
  | Chain_getCurrentChainConfig => ChainAccess.getCurrentChainConfig env now s
  | User_getDetails => UserAccess.getDetails env now s
  | User_getProfile id => UserAccess.getProfile env now id s
  | Wallet_getBalance => WalletAccess.getBalance env now s
  | Wallet_getBalanceFormatted => WalletAccess.getBalanceFormatted env now s
  | Wallet_getAddress => WalletAccess.getAddress env now s
  | Wallet_getSmartAccount => WalletAccess.getSmartAccount env now s
  end.

(** The method name and the payload of a posted message. *)
Definition wire (m : Posted) : Completion Value * Completion Value :=
  (get (posted m) "type", get (posted m) "payload").

(** ** More notions used to state properties *)

(** The announcement [notifyReady] posts. *)
Definition ready_message (env : Browser) : Posted :=
  {| target := parent env;
     posted := VObj [("type", VStr "app:ready"); ("payload", VNull)];
     targetOrigin := "*" |}.

(** Every tracked identifier has an armed timer of its own call. *)
Definition armed (s : State) : Prop :=
  ∀ k p, pendingRequests s !! k = Some p →
    ∃ tm, tm ∈ timers s ∧ timer_requestId tm = k ∧ timer_call tm = p.

(** No timer is due later than 30000 milliseconds from now. *)
Definition deadlines_bounded (s : State) : Prop :=
  ∀ tm, tm ∈ timers s → (deadline tm ≤ clock s + 30000)%N.

(** A message from the parent window that the handler turns into [o]. *)
Definition yields (env : Browser) (o : Settlement) (e : Event) : Prop :=
  match e with
  | EvMessage event =>
      source event = Some (parent env) ∧ reply (data event) = Return o
  | _ => False
  end.

Definition is_message (e : Event) : bool :=
  match e with
  | EvMessage _ => true
  | _ => false
  end.

(** * Properties *)

(** ** Strict equality and identifiers *)

Lemma strict_eq_str_true x lit : strict_eq_str x lit = true ↔ x = VStr lit.
Proof.
  destruct x; simpl; try (split; [discriminate|congruence]).
  rewrite String.eqb_eq. split; congruence.
Qed.

Lemma strict_eq_str_false x lit : strict_eq_str x lit = false ↔ x ≠ VStr lit.
Proof.
  rewrite <- strict_eq_str_true. destruct (strict_eq_str x lit); split; congruence.
Qed.


Lemma pretty_N_go_dashless x s : dashless s → dashless (pretty_N_go x s).
Proof.
  revert s. induction (N.lt_wf_0 x) as [x _ IH]; intros s Hs.
  assert (x = 0 ∨ 0 < x)%N as [->|Hpos] by lia.
  - by rewrite pretty_N_go_0.
  - rewrite pretty_N_go_step by done. apply IH.
    + by apply N.div_lt.
    + split; [|done]. unfold pretty_N_char. by repeat case_match.
Qed.

Lemma pretty_N_dashless (x : N) : dashless (pretty x).
Proof.
  unfold pretty, pretty_N. case_decide.
  - by repeat split.
  - by apply pretty_N_go_dashless.
Qed.

Lemma append_nil s : "" +:+ s = s.
Proof. reflexivity. Qed.

Lemma append_cons c a s : String c a +:+ s = String c (a +:+ s).
Proof. reflexivity. Qed.

Lemma dashless_app_dash a d : ¬ dashless (a +:+ String "-" d).
Proof.
  induction a as [|x a IH]; rewrite ?append_nil, ?append_cons; simpl; tauto.
Qed.

(** The text after the last dash of a string determines the split. *)
Lemma app_dash_inj a a' d d' :
  dashless d → dashless d' →
  a +:+ "-" +:+ d = a' +:+ "-" +:+ d' → a = a' ∧ d = d'.
Proof.
  change ("-" +:+ d) with (String "-" d). change ("-" +:+ d') with (String "-" d').
  revert a'. induction a as [|c a IH]; intros [|c' a'] Hd Hd';
    rewrite ?append_nil, ?append_cons.
  - intros [= ->]. done.
  - intros [= <- ->]. by apply dashless_app_dash in Hd.
  - intros [= -> <-]. by apply dashless_app_dash in Hd'.
  - intros [= -> Heq]. destruct (IH a' Hd Hd' Heq) as [-> ->]. done.
Qed.

Lemma mkId_inj t c t' c' : mkId t c = mkId t' c' → t = t' ∧ c = c'.
Proof.
  unfold mkId. intros H.
  apply app_dash_inj in H as [Ht Hc]; auto using pretty_N_dashless.
  split; [by apply (inj pretty)|by apply (inj pretty)].
Qed.

Example mkId_burst : mkId 1730000000000 0 = "1730000000000-0"
  ∧ mkId 1730000000000 1 = "1730000000000-1".
Proof. split; reflexivity. Qed.




(** ** What one delivery of a message does *)

Lemma handleMessage_other_source env event s :
  source event ≠ Some (parent env) → handleMessage env event s = Return s.
Proof.
  intros H. unfold handleMessage. by rewrite bool_decide_eq_false_2.
Qed.

Lemma handleMessage_unknown env event s key :
  get (data event) "requestId" = Return key →
  Map_get (pendingRequests s) key = None →
  handleMessage env event s = Return s.
Proof.
  intros Hk Hm. unfold handleMessage. case_bool_decide; cbn [bind]; [|done].
  by rewrite Hk; cbn [bind]; rewrite Hm.
Qed.

Lemma handleMessage_match env event s id p :
  source event = Some (parent env) →
  get (data event) "requestId" = Return (VStr id) →
  pendingRequests s !! id = Some p →
  handleMessage env event s
  = bind (reply (data event)) (λ o, Return (completed id p o s)).
Proof.
  intros Hsrc Hk Hp. unfold handleMessage, reply.
  rewrite bool_decide_eq_true_2 by done. cbn [bind].
  rewrite Hk. cbn [bind Map_get]. rewrite Hp.
  destruct (get (data event) "type") as [type|]; cbn [bind]; [|done].
  destruct (strict_eq_str type "error"); cbn [bind].
  - destruct (get (data event) "error") as [e|]; cbn [bind]; [|done].
    destruct (new_Error e) as [err|]; cbn [bind]; [|done]. done.
  - destruct (get (data event) "result") as [r|]; cbn [bind]; [|done]. done.
Qed.

(** Every delivery is of one of three kinds: ignored, aborted by an
    exception before anything changed, or the completion of a tracked call. *)
Lemma handleMessage_cases env event s :
  handleMessage env event s = Return s
  ∨ handleMessage env event s = Throw
  ∨ ∃ id p o,
      source event = Some (parent env)
      ∧ get (data event) "requestId" = Return (VStr id)
      ∧ pendingRequests s !! id = Some p
      ∧ reply (data event) = Return o
      ∧ handleMessage env event s = Return (completed id p o s).
Proof.
  destruct (decide (source event = Some (parent env))) as [Hsrc|Hsrc];
    [|left; by apply handleMessage_other_source].
  destruct (get (data event) "requestId") as [key|] eqn:Hk.
  - destruct (Map_get (pendingRequests s) key) as [p|] eqn:Hm;
      [|left; by eapply handleMessage_unknown].
    destruct key; simpl in Hm; try discriminate.
    rewrite (handleMessage_match _ _ _ _ _ Hsrc Hk Hm).
    destruct (reply (data event)) as [o|] eqn:Ho; cbn [bind]; [|by right; left].
    right; right. by exists s0, p, o.
  - right; left. unfold handleMessage. rewrite bool_decide_eq_true_2 by done.
    cbn [bind]. by rewrite Hk.
Qed.

(** The three cases of [handleMessage_cases], with fresh names for what the
    third one provides. *)
Ltac message_cases env event s :=
  destruct (handleMessage_cases env event s)
    as [->|[->|(?id & ?p & ?o & ?Hsrc & ?Hkey & ?Hpend & ?Hrep & ->)]].

(** ** The invariant of the engine *)

Lemma Inv_constructor env : Inv (constructor env).
Proof.
  split; simpl.
  - intros k q H. by rewrite lookup_empty in H.
  - intros k k' q H. by rewrite lookup_empty in H.
  - intros tm H. by apply elem_of_nil in H.
  - constructor.
  - intros q H. by apply elem_of_nil in H.
  - constructor.
  - intros id H. by apply elem_of_nil in H.
  - constructor.
Qed.

Lemma Inv_completed id p o s :
  Inv s → pendingRequests s !! id = Some p → Inv (completed id p o s).
Proof.
  intros HI Hp. destruct (inv_pending s HI id p Hp) as (_ & Hlt & Hun).
  split; simpl.
  - intros k q Hk. apply lookup_delete_Some in Hk as [Hne Hk].
    destruct (inv_pending s HI k q Hk) as (Hform & Hq & Hu).
    split_and!; [done..|].
    unfold unsettled; simpl. rewrite fmap_app, elem_of_app. simpl.
    intros [?|Hin%list_elem_of_singleton]; [done|]. subst q.
    apply Hne. symmetry. by eapply inv_pending_inj.
  - intros k k' q [_ Hk]%lookup_delete_Some [_ Hk']%lookup_delete_Some.
    by eapply inv_pending_inj.
  - intros tm Hin. by apply (inv_timers s HI).
  - exact (inv_timers_NoDup s HI).
  - intros q. rewrite fmap_app, elem_of_app. simpl.
    intros [Hin|Hq%list_elem_of_singleton]; [by apply inv_settled|by subst q].
  - rewrite fmap_app. simpl. apply NoDup_app. split_and!.
    + by apply inv_once.
    + intros q Hq Hq'%list_elem_of_singleton. by subst q.
    + apply NoDup_singleton.
  - exact (inv_sent s HI).
  - exact (inv_sent_NoDup s HI).
Qed.

Lemma on_timeout_miss tm s :
  pendingRequests s !! timer_requestId tm = None → on_timeout tm s = s.
Proof.
  intros H. unfold on_timeout. rewrite bool_decide_eq_false_2; [done|].
  rewrite H. by intros [? ?].
Qed.

Lemma on_timeout_hit tm s p :
  pendingRequests s !! timer_requestId tm = Some p →
  on_timeout tm s
  = completed (timer_requestId tm) (timer_call tm)
      (Rejected (mkError "Request timeout")) s.
Proof.
  intros H. unfold on_timeout. rewrite bool_decide_eq_true_2; [done|].
  rewrite H. by eexists.
Qed.

(** Under the invariant the table entry a timer finds is that of its own
    call. *)
Lemma timer_finds_own_call tm s p :
  Inv s → timer_of_past_call tm s →
  pendingRequests s !! timer_requestId tm = Some p → timer_call tm = p.
Proof.
  intros HI [[t Ht] _] Hp.
  destruct (inv_pending s HI _ _ Hp) as ([t' Ht'] & _ & _).
  rewrite Ht in Ht'. by apply mkId_inj in Ht' as [_ ?].
Qed.

Lemma Inv_on_timeout tm s :
  Inv s → timer_of_past_call tm s → Inv (on_timeout tm s).
Proof.
  intros HI Htm.
  destruct (pendingRequests s !! timer_requestId tm) as [p|] eqn:Hp.
  - rewrite (on_timeout_hit _ _ _ Hp).
    rewrite (timer_finds_own_call _ _ _ HI Htm Hp). by apply Inv_completed.
  - by rewrite on_timeout_miss.
Qed.

Lemma on_timeout_requestId tm s : requestId (on_timeout tm s) = requestId s.
Proof. unfold on_timeout. by case_bool_decide. Qed.

Lemma Inv_timeouts l s :
  Inv s → (∀ tm, tm ∈ l → timer_of_past_call tm s) →
  Inv (foldl (λ acc tm, on_timeout tm acc) s l).
Proof.
  revert s. induction l as [|tm l IH]; intros s HI Hl; simpl; [done|].
  apply IH.
  - apply Inv_on_timeout; [done|]. apply Hl. by left.
  - intros tm' Hin. unfold timer_of_past_call. rewrite on_timeout_requestId.
    apply Hl. by right.
Qed.

Lemma Inv_take_due now s : (clock s ≤ now)%N → Inv s → Inv (take_due now s).
Proof.
  intros Hnow HI. split; simpl; try apply HI.
  - intros tm [Hdue Hin]%list_elem_of_filter.
    split; [by apply (inv_timers s HI)|].
    unfold due in Hdue. by apply N.leb_gt in Hdue.
  - eapply sublist_NoDup; [exact (inv_timers_NoDup s HI)|].
    apply fmap_sublist, sublist_filter.
Qed.

(** How a property is carried through the timers that run in one turn of
    the event loop. *)
Lemma timeouts_ind (P : State → Prop) (Q : Timer → Prop) l s :
  (∀ tm s, Inv s → timer_of_past_call tm s → Q tm → P s → P (on_timeout tm s)) →
  Inv s → (∀ tm, tm ∈ l → timer_of_past_call tm s ∧ Q tm) →
  P s → P (foldl (λ acc tm, on_timeout tm acc) s l).
Proof.
  intros Hstep. revert s. induction l as [|tm l IH]; intros s HI Hl HP; simpl; [done|].
  destruct (Hl tm) as [Htm HQ]; [by left|].
  apply IH.
  - by apply Inv_on_timeout.
  - intros tm' Hin. unfold timer_of_past_call. rewrite on_timeout_requestId.
    apply Hl. by right.
  - by apply Hstep.
Qed.

Lemma Inv_elapse dt s : Inv s → Inv (elapse dt s).
Proof.
  intros HI. unfold elapse. apply Inv_timeouts.
  - apply Inv_take_due; [lia|done].
  - intros tm [_ Hin]%list_elem_of_filter. by apply (inv_timers s HI).
Qed.

Lemma sent_ids_request env now type payload s :
  sent_ids (request env now type payload s) = sent_ids s ++ [next_id now s].
Proof. unfold sent_ids. simpl. by rewrite omap_app. Qed.

Lemma Inv_request env now type payload s :
  Inv s → Inv (request env now type payload s).
Proof.
  intros HI. split.
  - intros k q. simpl. rewrite lookup_insert_Some.
    intros [[<- <-]|[Hne Hk]].
    + split_and!; [by exists now|lia|].
      intros Hin. apply (inv_settled s HI) in Hin. lia.
    + destruct (inv_pending s HI k q Hk) as (? & ? & ?).
      split_and!; [done|lia|done].
  - intros k k' q. simpl. rewrite !lookup_insert_Some.
    intros [[<- <-]|[Hne Hk]] [[<- Hq]|[Hne' Hk']]; try done.
    + apply (inv_pending s HI) in Hk' as (_ & ? & _). lia.
    + subst q. apply (inv_pending s HI) in Hk as (_ & ? & _). lia.
    + by eapply inv_pending_inj.
  - intros tm. simpl. rewrite elem_of_app, list_elem_of_singleton.
    intros [Hin| ->].
    + destruct (inv_timers s HI tm Hin) as [[Hform Hlt] Hclock].
      split; [split|]; simpl; [done|lia|done].
    + split; [split|]; simpl; [by exists now|lia|lia].
  - simpl. rewrite fmap_app. simpl. apply NoDup_app. split_and!.
    + apply HI.
    + intros q [tm [-> Hin]]%list_elem_of_fmap Hq%list_elem_of_singleton.
      destruct (inv_timers s HI tm Hin) as [[_ Hlt] _]. lia.
    + apply NoDup_singleton.
  - intros q Hq. simpl in *. apply (inv_settled s HI) in Hq. lia.
  - apply HI.
  - intros id. rewrite sent_ids_request, elem_of_app, list_elem_of_singleton.
    intros [Hin| ->].
    + destruct (inv_sent s HI id Hin) as (t & c & ? & ?).
      exists t, c. split; [done|simpl; lia].
    + exists now, (requestId s). split; [done|simpl; lia].
  - rewrite sent_ids_request. apply NoDup_app. split_and!.
    + apply HI.
    + intros id Hin Hid%list_elem_of_singleton. subst id.
      destruct (inv_sent s HI _ Hin) as (t & c & Heq & Hlt).
      apply mkId_inj in Heq as [_ <-]. lia.
    + apply NoDup_singleton.
Qed.

Lemma Inv_destroy s : Inv s → Inv (destroy s).
Proof.
  intros HI. split; simpl; try apply HI.
  - intros k q H. by rewrite lookup_empty in H.
  - intros k k' q H. by rewrite lookup_empty in H.
Qed.

Lemma Inv_dispatch env event s : Inv s → Inv (dispatch env event s).
Proof.
  intros HI. unfold dispatch. destruct (listening s); [|done].
  message_cases env event s; [done..|]. by apply Inv_completed.
Qed.

Create HintDb engine.
#[local] Hint Resolve Inv_constructor Inv_request Inv_dispatch Inv_elapse
  Inv_destroy : engine.

Lemma Inv_step env s e : Inv s → Inv (step env s e).
Proof. destruct e; simpl; auto with engine. Qed.

Lemma Inv_run env es s : Inv s → Inv (run env s es).
Proof.
  revert s. induction es as [|e es IH]; intros s HI; simpl; [done|].
  by apply IH, Inv_step.
Qed.

Lemma reachable_Inv env s : reachable env s → Inv s.
Proof. intros [es ->]. apply Inv_run, Inv_constructor. Qed.

Lemma reachable_constructor env : reachable env (constructor env).
Proof. by exists []. Qed.

Lemma reachable_run env s es : reachable env s → reachable env (run env s es).
Proof.
  intros [es0 ->]. exists (es0 ++ es). unfold run. by rewrite foldl_app.
Qed.

(** ** Settlements are recorded once and for all *)

Lemma filter_call_absent (l : list (N * Settlement)) p :
  p ∉ l.*1 → filter (λ x, x.1 = p) l = [].
Proof.
  induction l as [|[q o] l IH]; simpl; [done|].
  rewrite not_elem_of_cons. intros [Hne Hnin].
  rewrite filter_cons_False by (simpl; congruence). by apply IH.
Qed.

Lemma filter_call_unique (l : list (N * Settlement)) p o :
  NoDup l.*1 → (p, o) ∈ l → filter (λ x, x.1 = p) l = [(p, o)].
Proof.
  induction l as [|[q o'] l IH]; simpl.
  - intros _ H. by apply elem_of_nil in H.
  - rewrite NoDup_cons, elem_of_cons. intros [Hq Hnd] [[= <- <-]|Hin].
    + rewrite filter_cons_True by done. by rewrite filter_call_absent.
    + rewrite filter_cons_False; [by apply IH|].
      simpl. intros ->. apply Hq. apply list_elem_of_fmap. by exists (p, o).
Qed.

Lemma settled_outcome p o s :
  Inv s → (p, o) ∈ settled s → outcome p s = Some o ∧ settlements p s = 1%nat.
Proof.
  intros HI Hin. unfold outcome, settlements.
  by rewrite (filter_call_unique _ p o (inv_once s HI) Hin).
Qed.

Lemma unsettled_outcome p s :
  unsettled p s → outcome p s = None ∧ settlements p s = 0%nat.
Proof.
  intros Hun. unfold outcome, settlements. by rewrite filter_call_absent.
Qed.

Lemma settled_completed id p o s x :
  x ∈ settled s → x ∈ settled (completed id p o s).
Proof. simpl. rewrite elem_of_app. by left. Qed.

Lemma settled_on_timeout tm s x : x ∈ settled s → x ∈ settled (on_timeout tm s).
Proof.
  unfold on_timeout. case_bool_decide; [|done]. simpl. rewrite elem_of_app. by left.
Qed.

Lemma settled_timeouts l s x :
  x ∈ settled s → x ∈ settled (foldl (λ acc tm, on_timeout tm acc) s l).
Proof.
  revert s. induction l as [|tm l IH]; intros s H; simpl; [done|].
  by apply IH, settled_on_timeout.
Qed.

Lemma settled_step env s e x : x ∈ settled s → x ∈ settled (step env s e).
Proof.
  intros H. destruct e as [now type payload|event|dt|]; simpl; [done| | |done].
  - unfold dispatch. destruct (listening s); [|done].
    message_cases env event s; [done..|]. by apply settled_completed.
  - unfold elapse. by apply settled_timeouts.
Qed.

Lemma settled_run env es s x : x ∈ settled s → x ∈ settled (run env s es).
Proof.
  revert s. induction es as [|e es IH]; intros s H; simpl; [done|].
  by apply IH, settled_step.
Qed.

(** ** Identifiers that are no longer tracked stay so *)

Lemma pending_on_timeout_None tm s id :
  pendingRequests s !! id = None → pendingRequests (on_timeout tm s) !! id = None.
Proof.
  intros H. unfold on_timeout. case_bool_decide; [|done]. simpl.
  rewrite lookup_delete_None. by right.
Qed.

Lemma pending_timeouts_None l s id :
  pendingRequests s !! id = None →
  pendingRequests (foldl (λ acc tm, on_timeout tm acc) s l) !! id = None.
Proof.
  revert s. induction l as [|tm l IH]; intros s H; simpl; [done|].
  by apply IH, pending_on_timeout_None.
Qed.

Lemma requestId_timeouts l s :
  requestId (foldl (λ acc tm, on_timeout tm acc) s l) = requestId s.
Proof.
  revert s. induction l as [|tm l IH]; intros s; simpl; [done|].
  by rewrite IH, on_timeout_requestId.
Qed.

Lemma retired_step env s e id : retired id s → retired id (step env s e).
Proof.
  intros [Hnone (t & c & Hid & Hlt)].
  destruct e as [now type payload|event|dt|]; simpl.
  - split.
    + simpl. rewrite lookup_insert_ne; [done|]. unfold next_id. rewrite Hid.
      intros [_ Heq]%mkId_inj. lia.
    + exists t, c. split; [done|simpl; lia].
  - unfold dispatch. destruct (listening s); [|by split; eauto].
    destruct (handleMessage_cases env event s)
      as [->|[->|(id' & p & o & _ & _ & _ & _ & ->)]]; [by split; eauto..|].
    split; [|by exists t, c]. simpl. rewrite lookup_delete_None. by right.
  - unfold elapse. split.
    + by apply pending_timeouts_None.
    + rewrite requestId_timeouts. by exists t, c.
  - split; [done|by exists t, c].
Qed.

Lemma retired_run env es s id : retired id s → retired id (run env s es).
Proof.
  revert s. induction es as [|e es IH]; intros s H; simpl; [done|].
  by apply IH, retired_step.
Qed.

(** A message that names a retired identifier is ignored. *)
Lemma retired_inert env event s id :
  retired id s → get (data event) "requestId" = Return (VStr id) →
  handleMessage env event s = Return s ∧ dispatch env event s = s.
Proof.
  intros [Hnone _] Hk.
  assert (handleMessage env event s = Return s) as Hh
    by (by eapply handleMessage_unknown).
  split; [done|]. unfold dispatch. rewrite Hh. by destruct (listening s).
Qed.

(** ** Identifiers of the calls of one instance *)

Lemma outbox_timeouts l s :
  outbox (foldl (λ acc tm, on_timeout tm acc) s l) = outbox s.
Proof.
  revert s. induction l as [|tm l IH]; intros s; simpl; [done|].
  rewrite IH. unfold on_timeout. by case_bool_decide.
Qed.

Lemma outbox_dispatch env event s : outbox (dispatch env event s) = outbox s.
Proof.
  unfold dispatch. destruct (listening s); [|done].
  by message_cases env event s.
Qed.

Lemma outbox_step env s e :
  outbox (step env s e)
  = outbox s ++
    match e with
    | EvRequest now type payload =>
        [{| target := parent env;
            posted := VObj [("type", VStr type);
                            ("requestId", VStr (next_id now s));
                            ("payload", payload)];
            targetOrigin := "*" |}]
    | _ => []
    end.
Proof.
  destruct e as [now type payload|event|dt|]; simpl; rewrite ?app_nil_r.
  - done.
  - apply outbox_dispatch.
  - unfold elapse. by rewrite outbox_timeouts.
  - done.
Qed.

Lemma sent_ids_run env es s :
  sent_ids (run env s es) = sent_ids s ++ generated env s es.
Proof.
  revert s. induction es as [|e es IH]; intros s; simpl.
  - by rewrite app_nil_r.
  - rewrite IH, app_assoc. f_equal.
    unfold sent_ids. rewrite outbox_step, omap_app. f_equal.
    by destruct e.
Qed.

Lemma generated_length env es s :
  length (generated env s es) = length (filter (λ e, is_request e = true) es).
Proof.
  revert s. induction es as [|e es IH]; intros s; [done|].
  cbn [generated]. rewrite length_app, IH.
  destruct e;
    [rewrite filter_cons_True by done|rewrite filter_cons_False by done..];
    done.
Qed.

(** C3.  In any run of one instance, whatever else happens between the
    calls and whatever [Date.now()] reads at each call (also when it reads
    the same for several calls), the calls of [request] generate one
    identifier each, these are the identifiers sent to the parent window,
    and they are pairwise distinct; each is made of the time stamp and the
    value of the counter, which grows by one with every call. *)
Theorem generated_ids_distinct env es :
  let ids := generated env (constructor env) es in
  NoDup ids
  ∧ length ids = length (filter (λ e, is_request e = true) es)
  ∧ sent_ids (run env (constructor env) es) = ids
  ∧ ∀ s now type payload,
      next_id now s = mkId now (requestId s)
      ∧ requestId (request env now type payload s) = (requestId s + 1)%N.
Proof.
  intros ids.
  pose proof (inv_sent_NoDup _ (Inv_run env es _ (Inv_constructor env))) as H.
  rewrite sent_ids_run in H. simpl in H.
  split_and!; [done|apply generated_length|by rewrite sent_ids_run|done].
Qed.

Example burst_in_one_tick :
  generated wallet_env (constructor wallet_env)
    [EvRequest 1730000000000 "wallet:getBalance" VUndefined;
     EvRequest 1730000000000 "wallet:getBalance" VUndefined;
     EvRequest 1730000000000 "storage:get" (VObj [("key", VStr "k")])]
  = ["1730000000000-0"; "1730000000000-1"; "1730000000000-2"].
Proof. vm_compute. reflexivity. Qed.

(** ** Sending *)

Lemma outbox_run_wildcard env es s :
  (∀ m, m ∈ outbox s → target m = parent env ∧ targetOrigin m = "*") →
  ∀ m, m ∈ outbox (run env s es) → target m = parent env ∧ targetOrigin m = "*".
Proof.
  revert s. induction es as [|e es IH]; intros s Hs; simpl; [done|].
  apply IH. intros m. rewrite outbox_step, elem_of_app.
  intros [Hm|Hm]; [by apply Hs|].
  destruct e; try (by apply elem_of_nil in Hm).
  apply list_elem_of_singleton in Hm. by subst m.
Qed.

(** C9.  [request] posts its message to [window.parent] with the target
    origin ["*"], in every state and every context: nothing about the
    context is consulted before the send.  Every message an instance has
    posted so far went to the parent window with target origin ["*"]. *)
Theorem request_posts_to_any_origin env now type payload s :
  outbox (request env now type payload s)
  = outbox s ++
    [{| target := parent env;
        posted := VObj [("type", VStr type);
                        ("requestId", VStr (next_id now s));
                        ("payload", payload)];
        targetOrigin := "*" |}]
  ∧ ∀ es m, m ∈ outbox (run env (constructor env) es) →
      target m = parent env ∧ targetOrigin m = "*".
Proof.
  split; [done|]. intros es. apply outbox_run_wildcard.
  intros m Hm. simpl in Hm. apply list_elem_of_singleton in Hm. by subst m.
Qed.

Lemma request_posts_to_any_origin_witness :
  let m := {| target := parent standalone_env;
              posted := VObj [("type", VStr "wallet:getBalance");
                              ("requestId", VStr "5-0");
                              ("payload", VUndefined)];
              targetOrigin := "*" |} in
  target m = parent standalone_env ∧ targetOrigin m = "*".
Proof.
  intros m.
  apply (proj2 (request_posts_to_any_origin standalone_env 5
                  "wallet:getBalance" VUndefined (constructor standalone_env))
           [EvRequest 5 "wallet:getBalance" VUndefined] m).
  vm_compute. apply list_elem_of_lookup. by exists 1%nat.
Defined.

Example request_sent_when_not_framed :
  Detection.isInFrontierApp standalone_env = Return false
  ∧ DetectionTop.isInFrontierApp standalone_env = false
  ∧ outbox (request standalone_env 5 "wallet:getBalance" VUndefined
              (constructor standalone_env))
    = [ {| target := 0; targetOrigin := "*";
           posted := VObj [("type", VStr "app:ready"); ("payload", VNull)] |};
        {| target := 0; targetOrigin := "*";
           posted := VObj [("type", VStr "wallet:getBalance");
                           ("requestId", VStr "5-0");
                           ("payload", VUndefined)] |} ].
Proof. vm_compute. done. Qed.

(** ** Which settlement a message yields *)

Lemma reply_not_error response type r :
  get response "type" = Return type → type ≠ VStr "error" →
  get response "result" = Return r → reply response = Return (Resolved r).
Proof.
  intros Ht Hne Hr. unfold reply. rewrite Ht. cbn [bind].
  apply strict_eq_str_false in Hne. rewrite Hne, Hr. done.
Qed.

Lemma reply_error response e err :
  get response "type" = Return (VStr "error") →
  get response "error" = Return e → new_Error e = Return err →
  reply response = Return (Rejected err).
Proof.
  intros Ht He Herr. unfold reply. rewrite Ht. cbn [bind].
  rewrite (proj2 (strict_eq_str_true _ _) eq_refl), He. cbn [bind].
  by rewrite Herr.
Qed.


Lemma new_Error_primitive e :
  (∀ fields, e ≠ VObj fields) → ∃ err, new_Error e = Return err.
Proof. destruct e as [| |[]| | |fields]; simpl; intros H; eauto. by destruct (H fields). Qed.

(** The handler derives a settlement from every message that names a
    request and whose [error] field is not an object, whatever its [type]. *)
Lemma reply_total response id :
  get response "requestId" = Return (VStr id) →
  primitive_error response = true →
  ∃ o, reply response = Return o.
Proof.
  intros Hk Herr.
  assert (∀ k, ∃ v, get response k = Return v) as Hget.
  { intros k. destruct response; simpl in *; try discriminate; eauto. }
  destruct (Hget "type") as [type Ht], (Hget "error") as [e He],
    (Hget "result") as [r Hr].
  unfold reply. rewrite Ht. cbn [bind]. destruct (strict_eq_str type "error").
  - rewrite He. cbn [bind].
    destruct (new_Error_primitive e) as [err ->].
    + intros fields ->. unfold primitive_error in Herr. by rewrite He in Herr.
    + cbn [bind]. eauto.
  - rewrite Hr. cbn [bind]. eauto.
Qed.

(** ** Delivery of a message for a tracked call *)

Lemma completed_retired id p o s :
  Inv s → pendingRequests s !! id = Some p → retired id (completed id p o s).
Proof.
  intros HI Hp. destruct (inv_pending s HI id p Hp) as ([t Ht] & Hlt & _).
  split; [simpl; apply lookup_delete_eq|by exists t, p].
Qed.

Lemma completed_settled id p o s : (p, o) ∈ settled (completed id p o s).
Proof. simpl. rewrite elem_of_app, list_elem_of_singleton. by right. Qed.

(** Once call [p] is settled with [o] and its identifier retired, it stays
    so in every continuation, and messages naming the identifier do
    nothing. *)
Lemma settled_for_good env s id p o es event :
  Inv s → retired id s → (p, o) ∈ settled s →
  get (data event) "requestId" = Return (VStr id) →
  let s' := run env s es in
  handleMessage env event s' = Return s' ∧ dispatch env event s' = s'
  ∧ settlements p s' = 1%nat ∧ outcome p s' = Some o.
Proof.
  intros HI Hret Hin Hk s'.
  destruct (retired_inert env event s' id) as [Hh Hd];
    [by apply retired_run|done|].
  destruct (settled_outcome p o s') as [Ho Hn];
    [by apply Inv_run|by apply settled_run|]. done.
Qed.

(** C1.  In a state the instance can be in, let [id] be tracked for call
    [p].  Handling a message from the parent window that names [id] (its
    [error] field, if any, not being an object) invokes the completion
    functions of [p], for the first and only time, with the settlement [o]
    the message yields, and removes [id] from the table.  Whatever happens
    next, a further message naming [id] leaves the state as it is, and the
    call keeps its one settlement. *)
Theorem matching_message_settles_once env s event id p es event' :
  reachable env s →
  pendingRequests s !! id = Some p →
  source event = Some (parent env) →
  get (data event) "requestId" = Return (VStr id) →
  primitive_error (data event) = true →
  get (data event') "requestId" = Return (VStr id) →
  ∃ o,
    let s1 := completed id p o s in
    let s2 := run env s1 es in
    reply (data event) = Return o
    ∧ handleMessage env event s = Return s1
    ∧ (listening s = true → dispatch env event s = s1)
    ∧ settlements p s = 0%nat
    ∧ settlements p s1 = 1%nat ∧ outcome p s1 = Some o
    ∧ pendingRequests s1 = delete id (pendingRequests s)
    ∧ handleMessage env event' s2 = Return s2 ∧ dispatch env event' s2 = s2
    ∧ settlements p s2 = 1%nat ∧ outcome p s2 = Some o.
Proof.
  intros Hreach Hp Hsrc Hk Herr Hk'.
  destruct (reply_total _ _ Hk Herr) as [o Ho]. exists o. intros s1 s2.
  assert (handleMessage env event s = Return s1) as Hh
    by (by rewrite (handleMessage_match _ _ _ _ _ Hsrc Hk Hp), Ho).
  pose proof (reachable_Inv _ _ Hreach) as HI.
  assert (Inv s1) as HI1 by (by apply Inv_completed).
  destruct (inv_pending s HI id p Hp) as (_ & _ & Hun).
  destruct (settled_outcome p o s1 HI1 (completed_settled id p o s)) as [Ho1 Hn1].
  destruct (settled_for_good env s1 id p o es event' HI1) as (? & ? & ? & ?);
    [by apply completed_retired|apply completed_settled|done|].
  split_and!; try done.
  - intros Hl. unfold dispatch. by rewrite Hl, Hh.
  - by apply unsettled_outcome.
Qed.

Lemma matching_message_settles_once_witness :
  let s := run wallet_env (constructor wallet_env)
             [EvRequest 1000 "storage:get" (VObj [("key", VStr "k")])] in
  let event := from_window 0 "https://wallet.frontiertower.io"
                 (response_msg "1000-0" (VStr "v")) in
  ∃ o,
    let s1 := completed "1000-0" 0 o s in
    let s2 := run wallet_env s1 [EvElapse 30000; EvMessage event] in
    reply (data event) = Return o
    ∧ handleMessage wallet_env event s = Return s1
    ∧ (listening s = true → dispatch wallet_env event s = s1)
    ∧ settlements 0 s = 0%nat
    ∧ settlements 0 s1 = 1%nat ∧ outcome 0 s1 = Some o
    ∧ pendingRequests s1 = delete "1000-0" (pendingRequests s)
    ∧ handleMessage wallet_env event s2 = Return s2
    ∧ dispatch wallet_env event s2 = s2
    ∧ settlements 0 s2 = 1%nat ∧ outcome 0 s2 = Some o.
Proof.
  intros s event.
  apply (matching_message_settles_once wallet_env s event "1000-0" 0
           [EvElapse 30000; EvMessage event] event).
  - eexists. reflexivity.
  - vm_compute. reflexivity.
  - reflexivity.
  - reflexivity.
  - reflexivity.
  - reflexivity.
Defined.

(** ** The result and the error text *)

(** C5.  For a tracked call, a message from the parent window of kind
    ["response"] settles the call with the value of its [result] field, and
    one of kind ["error"] whose [error] field is a text rejects it with an
    [Error] whose message is that text. *)
Theorem reply_carries_result_or_error_text env s event id p :
  reachable env s →
  pendingRequests s !! id = Some p →
  source event = Some (parent env) →
  get (data event) "requestId" = Return (VStr id) →
  (∀ v, get (data event) "type" = Return (VStr "response") →
        get (data event) "result" = Return v →
        let s1 := completed id p (Resolved v) s in
        handleMessage env event s = Return s1
        ∧ outcome p s1 = Some (Resolved v))
  ∧ (∀ text, get (data event) "type" = Return (VStr "error") →
        get (data event) "error" = Return (VStr text) →
        let s1 := completed id p (Rejected (mkError text)) s in
        handleMessage env event s = Return s1
        ∧ outcome p s1 = Some (Rejected (mkError text))).
Proof.
  intros Hreach Hp Hsrc Hk.
  pose proof (reachable_Inv _ _ Hreach) as HI.
  split.
  - intros v Ht Hr s1. split.
    + rewrite (handleMessage_match _ _ _ _ _ Hsrc Hk Hp).
      by rewrite (reply_not_error _ _ _ Ht ltac:(done) Hr).
    + apply settled_outcome; [by apply Inv_completed|apply completed_settled].
  - intros text Ht He s1. split.
    + rewrite (handleMessage_match _ _ _ _ _ Hsrc Hk Hp).
      by rewrite (reply_error _ _ _ Ht He eq_refl).
    + apply settled_outcome; [by apply Inv_completed|apply completed_settled].
Qed.

Lemma reply_carries_result_or_error_text_witness :
  let s := run wallet_env (constructor wallet_env)
             [EvRequest 1000 "storage:get" (VObj [("key", VStr "k")])] in
  let ok := from_window 0 "https://wallet.frontiertower.io"
              (response_msg "1000-0" (VStr "v")) in
  let ko := from_window 0 "https://wallet.frontiertower.io"
              (error_msg "1000-0" "Test error message") in
  (handleMessage wallet_env ok s
   = Return (completed "1000-0" 0 (Resolved (VStr "v")) s)
   ∧ outcome 0 (completed "1000-0" 0 (Resolved (VStr "v")) s)
     = Some (Resolved (VStr "v")))
  ∧ (handleMessage wallet_env ko s
     = Return (completed "1000-0" 0
                 (Rejected (mkError "Test error message")) s)
     ∧ outcome 0 (completed "1000-0" 0
                    (Rejected (mkError "Test error message")) s)
       = Some (Rejected (mkError "Test error message"))).
Proof.
  intros s ok ko.
  assert (reachable wallet_env s) as Hreach by (eexists; reflexivity).
  assert (pendingRequests s !! "1000-0" = Some 0%N) as Hp
    by (vm_compute; reflexivity).
  split.
  - exact (proj1 (reply_carries_result_or_error_text wallet_env s ok "1000-0" 0
                    Hreach Hp eq_refl eq_refl) (VStr "v") eq_refl eq_refl).
  - exact (proj2 (reply_carries_result_or_error_text wallet_env s ko "1000-0" 0
                    Hreach Hp eq_refl eq_refl) "Test error message"
             eq_refl eq_refl).
Defined.

Example storage_get_scenario :
  let s := run wallet_env (constructor wallet_env)
    [EvRequest 1000 "storage:get" (VObj [("key", VStr "k")]);
     EvMessage (from_window 0 "https://wallet.frontiertower.io"
                  (response_msg "1000-0" (VStr "v")))] in
  outcome 0 s = Some (Resolved (VStr "v")) ∧ pendingRequests s = ∅.
Proof. vm_compute. done. Qed.

Example remote_error_scenario :
  let s := run wallet_env (constructor wallet_env)
    [EvRequest 1000 "wallet:getBalance" VUndefined;
     EvMessage (from_window 0 "https://wallet.frontiertower.io"
                  (error_msg "1000-0" "Test error message"))] in
  outcome 0 s = Some (Rejected (mkError "Test error message")).
Proof. vm_compute. done. Qed.

(** Two calls answered in the reverse order: each gets its own result. *)
Example reverse_order_scenario :
  let s := run wallet_env (constructor wallet_env)
    [EvRequest 1000 "wallet:getBalance" VUndefined;
     EvRequest 1000 "storage:get" (VObj [("key", VStr "k")]);
     EvMessage (from_window 0 "https://wallet.frontiertower.io"
                  (response_msg "1000-1" (VStr "v")));
     EvMessage (from_window 0 "https://wallet.frontiertower.io"
                  (response_msg "1000-0" (VNum 42)))] in
  outcome 0 s = Some (Resolved (VNum 42))
  ∧ outcome 1 s = Some (Resolved (VStr "v")).
Proof. vm_compute. done. Qed.




Example kind_outside_alphabet :
  let s := run wallet_env (constructor wallet_env)
    [EvRequest 1000 "wallet:getBalance" VUndefined;
     EvMessage (from_window 0 "https://wallet.frontiertower.io"
                  (VObj [("type", VStr "ERROR"); ("requestId", VStr "1000-0");
                         ("error", VStr "boom")]))] in
  outcome 0 s = Some (Resolved VUndefined).
Proof. vm_compute. done. Qed.

(** ** Whose messages are honoured *)

(** C4.  The handler honours a message only if its sender is
    [window.parent]: a message from any other sender changes neither the
    table nor anything else of the state.  Neither the origin of the message
    nor any part of the context other than the parent window is examined. *)
Theorem only_parent_messages_are_honoured env event s :
  (source event ≠ Some (parent env) →
     handleMessage env event s = Return s ∧ dispatch env event s = s)
  ∧ (∀ env' o,
       parent env' = parent env →
       handleMessage env'
         {| source := source event; origin := o; data := data event |} s
       = handleMessage env event s).
Proof.
  split.
  - intros Hsrc. pose proof (handleMessage_other_source env event s Hsrc) as Hh.
    split; [done|]. unfold dispatch. rewrite Hh. by destruct (listening s).
  - intros env' o Hpar. unfold handleMessage. simpl. by rewrite Hpar.
Qed.

Lemma only_parent_messages_are_honoured_witness :
  let s := run wallet_env (constructor wallet_env)
             [EvRequest 1000 "wallet:getBalance" VUndefined] in
  let event := from_window 1 "https://wallet.frontiertower.io"
                 (response_msg "1000-0" (VStr "test-result")) in
  (handleMessage wallet_env event s = Return s ∧ dispatch wallet_env event s = s)
  ∧ handleMessage evil_env
      {| source := source event; origin := "https://evil.example";
         data := data event |} s
    = handleMessage wallet_env event s.
Proof.
  intros s event. split.
  - apply (proj1 (only_parent_messages_are_honoured wallet_env event s)).
    discriminate.
  - exact (proj2 (only_parent_messages_are_honoured wallet_env event s)
             evil_env "https://evil.example" eq_refl).
Defined.

(** The parent window of [evil_env] is a page whose origin is not allowed;
    the message it sends settles the call all the same. *)
Lemma untrusted_parent_is_honoured :
  let s := run evil_env (constructor evil_env)
             [EvRequest 1000 "wallet:getBalance" VUndefined] in
  let event := from_window (parent evil_env) "https://evil.example"
                 (response_msg "1000-0" (VStr "0")) in
  Detection.isInFrontierApp evil_env = Return false
  ∧ Detection.includes Detection.ALLOWED_ORIGINS "https://evil.example" = false
  ∧ pendingRequests s !! "1000-0" = Some 0%N
  ∧ outcome 0 s = None
  ∧ pendingRequests (dispatch evil_env event s) !! "1000-0" = None
  ∧ outcome 0 (dispatch evil_env event s) = Some (Resolved (VStr "0")).
Proof. vm_compute. done. Qed.

(** ** The embedding check *)

Lemma truthy_true x : x ≠ "" → Detection.truthy x = true.
Proof.
  intros H. unfold Detection.truthy. apply negb_true_iff.
  by apply String.eqb_neq.
Qed.

Lemma includes_production :
  Detection.includes Detection.ALLOWED_ORIGINS "https://wallet.frontiertower.io"
  = true.
Proof. vm_compute. reflexivity. Qed.

(** C7.  The variant of [isInFrontierApp] that compares origins returns
    true in a framed context ([window.parent] is not the window) whose
    referrer has the origin [https://wallet.frontiertower.io]; it returns
    false in a framed context whose referrer has an origin outside the allow
    list, provided the origin of the parent's location cannot be read or is
    outside the list as well.  The variant that only tests
    [window.self !== window.top] returns true in every context whose top
    window is another window, whatever the referrer. *)
Theorem isInFrontierApp_by_origin env :
  (parent env ≠ self env → referrer env ≠ "" →
     URL_origin env (referrer env) = Return "https://wallet.frontiertower.io" →
     Detection.isInFrontierApp env = Return true)
  ∧ (∀ o, parent env ≠ self env → referrer env ≠ "" →
       URL_origin env (referrer env) = Return o →
       Detection.includes Detection.ALLOWED_ORIGINS o = false →
       (parent_location_origin env = Throw
        ∨ ∃ po, parent_location_origin env = Return po
                ∧ Detection.includes Detection.ALLOWED_ORIGINS po = false) →
       Detection.isInFrontierApp env = Return false)
  ∧ (self env ≠ top env → DetectionTop.isInFrontierApp env = true).
Proof.
  split_and!.
  - intros Hpar Href Ho. unfold Detection.isInFrontierApp.
    rewrite bool_decide_eq_false_2 by done.
    unfold Detection.isInFrontierApp_try.
    rewrite (truthy_true _ Href), Ho. cbn [bind].
    by rewrite includes_production.
  - intros o Hpar Href Ho Hout Hloc. unfold Detection.isInFrontierApp.
    rewrite bool_decide_eq_false_2 by done.
    unfold Detection.isInFrontierApp_try.
    rewrite (truthy_true _ Href), Ho. cbn [bind].
    rewrite Hout, andb_false_r.
    destruct Hloc as [->|(po & -> & Hpo)]; cbn [bind].
    + done.
    + by rewrite Hpo, andb_false_r.
  - intros Htop. unfold DetectionTop.isInFrontierApp.
    by rewrite bool_decide_eq_false_2.
Qed.

Lemma isInFrontierApp_by_origin_witness :
  Detection.isInFrontierApp wallet_env = Return true
  ∧ Detection.isInFrontierApp evil_env = Return false
  ∧ DetectionTop.isInFrontierApp nested_env = true.
Proof.
  split_and!.
  - apply (proj1 (isInFrontierApp_by_origin wallet_env));
      [discriminate|discriminate|reflexivity].
  - apply (proj1 (proj2 (isInFrontierApp_by_origin evil_env))
             "https://evil.example");
      [discriminate|discriminate|reflexivity|reflexivity|by left].
  - apply (proj2 (proj2 (isInFrontierApp_by_origin nested_env))). discriminate.
Defined.

(** The referrer of [local_env] and of [evil_env] has an origin outside the
    allow list; both contexts are framed; each variant accepts one of
    them. *)
Lemma untrusted_referrer_accepted :
  URL_origin local_env (referrer local_env) = Return "https://evil.example"
  ∧ Detection.includes Detection.ALLOWED_ORIGINS "https://evil.example" = false
  ∧ parent local_env ≠ self local_env ∧ top local_env ≠ self local_env
  ∧ Detection.isInFrontierApp local_env = Return true
  ∧ URL_origin evil_env (referrer evil_env) = Return "https://evil.example"
  ∧ top evil_env ≠ self evil_env
  ∧ DetectionTop.isInFrontierApp evil_env = true.
Proof. vm_compute. split_and!; done. Qed.

Example detection_test_cases :
  Detection.isInFrontierApp standalone_env = Return false
  ∧ Detection.isInFrontierApp wallet_env = Return true
  ∧ Detection.isInFrontierApp evil_env = Return false
  ∧ Detection.isInFrontierApp nested_env = Return false.
Proof. vm_compute. done. Qed.

(** C8.  The variant of [isInFrontierApp] that only tests the framing
    classifies a context as embedded exactly when its top window is not the
    window itself, so it does for a context nested at any depth.  The
    variant that compares origins does not read [window.top]: it returns
    false whenever [window.parent] is the window itself, and otherwise
    decides by the origins. *)
Theorem embedded_by_variant env :
  (DetectionTop.isInFrontierApp env = true ↔ top env ≠ self env)
  ∧ (parent env = self env → Detection.isInFrontierApp env = Return false)
  ∧ (∀ w, Detection.isInFrontierApp
            {| self := self env; parent := parent env; top := w;
               referrer := referrer env; URL_origin := URL_origin env;
               parent_location_origin := parent_location_origin env |}
          = Detection.isInFrontierApp env).
Proof.
  split_and!.
  - unfold DetectionTop.isInFrontierApp. rewrite negb_true_iff.
    rewrite bool_decide_eq_false. split; congruence.
  - intros Hpar. unfold Detection.isInFrontierApp.
    by rewrite bool_decide_eq_true_2.
  - done.
Qed.

Lemma embedded_by_variant_witness :
  DetectionTop.isInFrontierApp nested_env = true
  ∧ Detection.isInFrontierApp standalone_env = Return false.
Proof.
  split.
  - apply (proj1 (embedded_by_variant nested_env)). discriminate.
  - exact (proj1 (proj2 (embedded_by_variant standalone_env)) eq_refl).
Defined.

(** In the context of the repository's detection tests the top window is
    the window itself, and the variant that compares origins answers true;
    in a context two levels below the top window, framed by a page that is
    not allowed, it answers false. *)
Lemma parent_test_accepts_top_window :
  top test_env = self test_env
  ∧ Detection.isInFrontierApp test_env = Return true
  ∧ DetectionTop.isInFrontierApp test_env = false
  ∧ top nested_env ≠ self nested_env
  ∧ Detection.isInFrontierApp nested_env = Return false
  ∧ DetectionTop.isInFrontierApp nested_env = true.
Proof. vm_compute. split_and!; done. Qed.

Example nested_context_is_embedded :
  DetectionTop.isInFrontierApp nested_env = true.
Proof. reflexivity. Qed.

(** ** After [destroy] *)

Lemma listening_timeouts l s :
  listening (foldl (λ acc tm, on_timeout tm acc) s l) = listening s.
Proof.
  revert s. induction l as [|tm l IH]; intros s; simpl; [done|].
  rewrite IH. unfold on_timeout. by case_bool_decide.
Qed.

Lemma listening_step_false env s e :
  listening s = false → listening (step env s e) = false.
Proof.
  intros Hl. destruct e as [now type payload|event|dt|]; simpl; [done| | |done].
  - unfold dispatch. by rewrite Hl.
  - unfold elapse. by rewrite listening_timeouts.
Qed.

Lemma listening_run_false env es s :
  listening s = false → listening (run env s es) = false.
Proof.
  revert s. induction es as [|e es IH]; intros s Hl; simpl; [done|].
  by apply IH, listening_step_false.
Qed.

Lemma abandoned_on_timeout p tm s :
  Inv s → timer_of_past_call tm s → abandoned p s →
  abandoned p (on_timeout tm s).
Proof.
  intros HI Htm (Hl & Hun & Hlt & Hnone).
  destruct (pendingRequests s !! timer_requestId tm) as [q|] eqn:Hq;
    [|by rewrite on_timeout_miss].
  rewrite (on_timeout_hit _ _ _ Hq).
  rewrite (timer_finds_own_call _ _ _ HI Htm Hq).
  split_and!; simpl; [done| |done|].
  - unfold unsettled. simpl. rewrite fmap_app, elem_of_app. simpl.
    intros [?|Hp%list_elem_of_singleton]; [done|]. subst q. by apply Hnone in Hq.
  - intros k [_ Hk]%lookup_delete_Some. by apply Hnone in Hk.
Qed.

Lemma abandoned_step env p s e :
  Inv s → abandoned p s → abandoned p (step env s e).
Proof.
  intros HI Hab. pose proof Hab as (Hl & Hun & Hlt & Hnone).
  destruct e as [now type payload|event|dt|]; simpl.
  - split_and!; simpl; [done|done|lia|].
    intros k [[_ Heq]|[_ Hk]]%lookup_insert_Some; [lia|by apply Hnone in Hk].
  - unfold dispatch. by rewrite Hl.
  - unfold elapse.
    apply (timeouts_ind (abandoned p) (λ _, True)).
    + intros tm s0 HI0 Htm _. by apply abandoned_on_timeout.
    + apply Inv_take_due; [lia|done].
    + intros tm [_ Hin]%list_elem_of_filter.
      split; [by apply (inv_timers s HI)|done].
    + done.
  - split_and!; simpl; [done..|]. intros k. by rewrite lookup_empty.
Qed.

Lemma abandoned_run env p es s :
  Inv s → abandoned p s → abandoned p (run env s es).
Proof.
  revert s. induction es as [|e es IH]; intros s HI Hab; simpl; [done|].
  apply IH; [by apply Inv_step|by apply abandoned_step].
Qed.

(** C6.  [destroy] removes the listener and empties the table without
    invoking any completion function, in whatever state the instance is,
    also when no call is in flight.  From then on, whatever happens (time
    passing, messages arriving, further calls), the listener stays removed
    and no message is handled; and a call that was tracked when [destroy]
    ran is never settled. *)
Theorem destroy_abandons_pending_calls env s es event :
  let s' := run env (destroy s) es in
  listening (destroy s) = false
  ∧ pendingRequests (destroy s) = ∅
  ∧ settled (destroy s) = settled s
  ∧ listening s' = false
  ∧ dispatch env event s' = s'
  ∧ (reachable env s →
     ∀ id p, pendingRequests s !! id = Some p →
       settlements p s' = 0%nat ∧ outcome p s' = None).
Proof.
  intros s'.
  assert (listening s' = false) as Hl by (by apply listening_run_false).
  split_and!; try done.
  - unfold dispatch. by rewrite Hl.
  - intros Hreach id p Hp.
    pose proof (reachable_Inv _ _ Hreach) as HI.
    destruct (inv_pending s HI id p Hp) as (_ & Hlt & Hun).
    assert (abandoned p s') as (_ & Hun' & _ & _).
    { apply abandoned_run; [by apply Inv_destroy|].
      split_and!; simpl; [done..|]. intros k. by rewrite lookup_empty. }
    by destruct (unsettled_outcome p s' Hun').
Qed.

Lemma destroy_abandons_pending_calls_witness :
  let idle := constructor wallet_env in
  let s := run wallet_env (constructor wallet_env)
             [EvRequest 1000 "test:method" VUndefined] in
  let event := from_window 0 "https://wallet.frontiertower.io"
                 (response_msg "1000-0" (VStr "test-result")) in
  let idle' := run wallet_env (destroy idle) [EvMessage event] in
  let s' := run wallet_env (destroy s) [EvMessage event; EvElapse 30000] in
  (listening (destroy idle) = false
   ∧ pendingRequests (destroy idle) = ∅
   ∧ settled (destroy idle) = settled idle
   ∧ listening idle' = false
   ∧ dispatch wallet_env event idle' = idle')
  ∧ listening (destroy s) = false
  ∧ dispatch wallet_env event s' = s'
  ∧ settlements 0 s' = 0%nat ∧ outcome 0 s' = None.
Proof.
  intros idle s event idle' s'.
  pose proof (destroy_abandons_pending_calls wallet_env idle
                [EvMessage event] event) as (I1 & I2 & I3 & I4 & I5 & _).
  pose proof (destroy_abandons_pending_calls wallet_env s
                [EvMessage event; EvElapse 30000] event)
    as (S1 & _ & _ & _ & S5 & Hp).
  split; [exact (conj I1 (conj I2 (conj I3 (conj I4 I5))))|].
  split; [exact S1|]. split; [exact S5|].
  apply (Hp (ex_intro _ [EvRequest 1000 "test:method" VUndefined] eq_refl)
           "1000-0" 0%N).
  vm_compute. reflexivity.
Defined.

(** ** The deadline of a call *)

Lemma clock_timeouts l s :
  clock (foldl (λ acc tm, on_timeout tm acc) s l) = clock s.
Proof.
  revert s. induction l as [|tm l IH]; intros s; simpl; [done|].
  rewrite IH. unfold on_timeout. by case_bool_decide.
Qed.

Lemma clock_elapse dt s : clock (elapse dt s) = (clock s + dt)%N.
Proof. unfold elapse. by rewrite clock_timeouts. Qed.

Lemma clock_run env es s : clock (run env s es) = (clock s + elapsed es)%N.
Proof.
  revert s. induction es as [|e es IH]; intros s; simpl; [lia|].
  rewrite IH. destruct e as [now type payload|event|dt|]; simpl; [done| | |done].
  - unfold dispatch. destruct (listening s); [|done].
    by message_cases env event s.
  - rewrite clock_elapse. lia.
Qed.

Lemma NoDup_fmap_eq {A B} (f : A → B) (l : list A) x y :
  NoDup (f <$> l) → x ∈ l → y ∈ l → f x = f y → x = y.
Proof.
  induction l as [|a l IH]; simpl.
  - intros _ H. by apply elem_of_nil in H.
  - rewrite NoDup_cons, !elem_of_cons. intros [Ha Hnd] [->|Hx] [->|Hy] Heq.
    + done.
    + destruct Ha. rewrite Heq. apply list_elem_of_fmap. by exists y.
    + destruct Ha. rewrite <- Heq. apply list_elem_of_fmap. by exists x.
    + by apply IH.
Qed.

(** The timer of another call does not touch the entry of this one. *)
Lemma pending_on_timeout_other tm tm' s :
  Inv s → timer_of_past_call tm s → timer_of_past_call tm' s →
  timer_call tm' ≠ timer_call tm →
  pendingRequests (on_timeout tm' s) !! timer_requestId tm
  = pendingRequests s !! timer_requestId tm.
Proof.
  intros HI [[t Ht] _] [[t' Ht'] _] Hne.
  assert (timer_requestId tm' ≠ timer_requestId tm) as Hid.
  { rewrite Ht, Ht'. intros [_ ?]%mkId_inj. done. }
  unfold on_timeout. case_bool_decide; [|done]. simpl.
  by rewrite lookup_delete_ne.
Qed.

Lemma waiting_timeouts_other tm l s :
  Inv s → timer_of_past_call tm s →
  (∀ tm', tm' ∈ l → timer_of_past_call tm' s ∧ timer_call tm' ≠ timer_call tm) →
  pendingRequests s !! timer_requestId tm = Some (timer_call tm) →
  pendingRequests (foldl (λ acc tm, on_timeout tm acc) s l) !! timer_requestId tm
  = Some (timer_call tm).
Proof.
  intros HI Htm Hl Hp.
  apply (timeouts_ind
    (λ s, timer_of_past_call tm s
          ∧ pendingRequests s !! timer_requestId tm = Some (timer_call tm))
    (λ tm', timer_call tm' ≠ timer_call tm) l s); [|done..].
  intros tm' s0 HI0 Htm' Hne [Htm0 Hp0]. split.
  - unfold timer_of_past_call. by rewrite on_timeout_requestId.
  - by rewrite pending_on_timeout_other.
Qed.

Lemma timers_timeouts l s :
  timers (foldl (λ acc tm, on_timeout tm acc) s l) = timers s.
Proof.
  revert s. induction l as [|tm l IH]; intros s; simpl; [done|].
  rewrite IH. unfold on_timeout. by case_bool_decide.
Qed.

(** One turn of the event loop for a call that waits: either it still
    waits, or its timer was due and rejected it. *)
Lemma waiting_elapse tm dt s :
  Inv s → waiting tm s →
  (due (clock s + dt) tm = false ∧ waiting tm (elapse dt s))
  ∨ (due (clock s + dt) tm = true ∧ timed_out tm (elapse dt s)).
Proof.
  intros HI [Hp Hin].
  destruct (inv_timers s HI tm Hin) as [Htm Hclock].
  assert (Inv (take_due (clock s + dt) s)) as HI'
    by (apply Inv_take_due; [lia|done]).
  assert (∀ tm', tm' ∈ timers s → tm' ≠ tm →
            timer_of_past_call tm' (take_due (clock s + dt) s)
            ∧ timer_call tm' ≠ timer_call tm) as Hothers.
  { intros tm' Hin' Hne. split; [by apply (inv_timers s HI)|].
    intros Heq. apply Hne.
    by apply (NoDup_fmap_eq timer_call (timers s) tm' tm (inv_timers_NoDup s HI)). }
  destruct (due (clock s + dt) tm) eqn:Hdue; [right|left]; (split; [done|]).
  - (* the timer is due *)
    unfold elapse.
    assert (tm ∈ filter (λ tm, due (clock s + dt) tm = true) (timers s)) as Hl
      by (by apply list_elem_of_filter).
    apply list_elem_of_split in Hl as (l1 & l2 & Hl).
    assert (NoDup (filter (λ tm, due (clock s + dt) tm = true) (timers s))) as Hnd.
    { eapply sublist_NoDup; [|apply sublist_filter].
      eapply NoDup_fmap_1, (inv_timers_NoDup s HI). }
    rewrite Hl in Hnd. apply NoDup_app in Hnd as (_ & Hl1 & [Hl2 _]%NoDup_cons).
    assert (∀ tm', tm' ∈ l1 ++ tm :: l2 → tm' ∈ timers s) as Hsub.
    { intros tm'. rewrite <- Hl. by intros [_ ?]%list_elem_of_filter. }
    rewrite Hl, foldl_app. simpl.
    set (sa := foldl (λ acc tm0, on_timeout tm0 acc) (take_due (clock s + dt) s) l1).
    assert (Inv sa) as HIa.
    { apply Inv_timeouts; [done|]. intros tm' Hin'.
      apply (inv_timers s HI), Hsub, elem_of_app. by left. }
    assert (pendingRequests sa !! timer_requestId tm = Some (timer_call tm)) as Hpa.
    { apply waiting_timeouts_other; [done|done| |done].
      intros tm' Hin'. apply Hothers.
      - apply Hsub, elem_of_app. by left.
      - intros ->. by apply (Hl1 tm), list_elem_of_here. }
    rewrite (on_timeout_hit _ _ _ Hpa).
    set (sb := completed _ _ _ sa).
    assert (timer_of_past_call tm sa) as Htma.
    { unfold timer_of_past_call, sa. by rewrite requestId_timeouts. }
    assert (retired (timer_requestId tm) sb) as [Hnone (t & c & Hid & Hlt)]
      by (by apply completed_retired).
    split_and!.
    + split; [by apply pending_timeouts_None|].
      exists t, c. by rewrite requestId_timeouts.
    + apply settled_timeouts, completed_settled.
    + rewrite clock_timeouts. simpl. unfold sa. rewrite clock_timeouts. simpl.
      unfold due in Hdue. by apply N.leb_le in Hdue.
  - (* the timer stays armed *)
    unfold elapse. split.
    + apply waiting_timeouts_other; [done|done| |done].
      intros tm' [Hdue' Hin']%list_elem_of_filter. apply Hothers; [done|].
      intros ->. congruence.
    + rewrite timers_timeouts. simpl. apply list_elem_of_filter. done.
Qed.

Lemma names_true id event :
  names id event = true ↔ get (data event) "requestId" = Return (VStr id).
Proof.
  unfold names. destruct (get (data event) "requestId") as [[]|]; try (split; [discriminate|congruence]).
  rewrite String.eqb_eq. split; congruence.
Qed.

Lemma waiting_step env tm s e :
  Inv s → waiting tm s →
  answers env (timer_requestId tm) e = false → is_destroy e = false →
  waiting tm (step env s e) ∨ timed_out tm (step env s e).
Proof.
  intros HI Hw Hans Hdes. pose proof Hw as [Hp Hin].
  destruct (inv_timers s HI tm Hin) as [[[t Ht] Hlt] _].
  destruct e as [now type payload|event|dt|]; simpl in *; [| | |done].
  - left. split; simpl.
    + rewrite lookup_insert_ne; [done|]. unfold next_id. rewrite Ht.
      intros [_ ?]%mkId_inj. lia.
    + rewrite elem_of_app. by left.
  - left. unfold dispatch. destruct (listening s); [|done].
    destruct (handleMessage_cases env event s)
      as [->|[->|(id & p & o & Hsrc & Hk & _ & _ & ->)]]; [done..|].
    split; simpl; [|done]. rewrite lookup_delete_ne; [done|]. intros ->.
    rewrite bool_decide_eq_true_2 in Hans by done.
    by rewrite (proj2 (names_true _ _) Hk) in Hans.
  - destruct (waiting_elapse tm dt s HI Hw) as [[_ ?]|[_ ?]]; [by left|by right].
Qed.

Lemma timed_out_run env tm es s :
  timed_out tm s → timed_out tm (run env s es).
Proof.
  intros (Hret & Hin & Hclock). split_and!.
  - by apply retired_run.
  - by apply settled_run.
  - rewrite clock_run. lia.
Qed.

Lemma unanswered_run env tm es s :
  Inv s → waiting tm s → unanswered env (timer_requestId tm) es = true →
  waiting tm (run env s es) ∨ timed_out tm (run env s es).
Proof.
  revert s. induction es as [|e es IH]; intros s HI Hw Hun; simpl; [by left|].
  simpl in Hun. apply andb_true_iff in Hun as [He Hes].
  apply andb_true_iff in He as [Hans Hdes].
  apply negb_true_iff in Hans, Hdes.
  destruct (waiting_step env tm s e HI Hw Hans Hdes) as [Hw'|Hto].
  - apply IH; [by apply Inv_step|done|done].
  - right. by apply timed_out_run.
Qed.

(** X17.  A call of [request] in a state the instance can be in arms a timer
    for 30000 milliseconds.  In a run after the call in which no message
    from the parent window names the identifier of the call and the
    instance is not destroyed: while less than 30000 milliseconds have
    passed the call is tracked and has no settlement; once 30000
    milliseconds have passed the call is rejected, once, with an [Error]
    whose message is ["Request timeout"], and its identifier is no longer
    tracked.  Whatever happens after that, a message naming the identifier
    changes nothing. *)
Theorem unanswered_call_times_out env s now type payload es es' event :
  reachable env s →
  unanswered env (next_id now s) es = true →
  get (data event) "requestId" = Return (VStr (next_id now s)) →
  let id := next_id now s in
  let p := requestId s in
  let timeout := Rejected (mkError "Request timeout") in
  let s2 := run env (request env now type payload s) es in
  let s3 := run env s2 es' in
  ((elapsed es < 30000)%N →
     pendingRequests s2 !! id = Some p
     ∧ settlements p s2 = 0%nat ∧ outcome p s2 = None)
  ∧ ((30000 ≤ elapsed es)%N →
     pendingRequests s2 !! id = None
     ∧ settlements p s2 = 1%nat ∧ outcome p s2 = Some timeout
     ∧ handleMessage env event s3 = Return s3 ∧ dispatch env event s3 = s3
     ∧ settlements p s3 = 1%nat ∧ outcome p s3 = Some timeout).
Proof.
  intros Hreach Hun Hk id p timeout s2 s3.
  pose proof (reachable_Inv _ _ Hreach) as HI.
  set (s1 := request env now type payload s).
  set (tm := {| deadline := (clock s + 30000)%N; timer_requestId := id;
                timer_call := p |}).
  assert (Inv s1) as HI1 by (by apply Inv_request).
  assert (waiting tm s1) as Hw.
  { split; simpl.
    - apply lookup_insert_eq.
    - rewrite elem_of_app, list_elem_of_singleton. by right. }
  assert (Inv s2) as HI2 by (by apply Inv_run).
  assert (clock s2 = (clock s + elapsed es)%N) as Hclock
    by (unfold s2; by rewrite clock_run).
  assert (waiting tm s2 ∨ timed_out tm s2) as [[Hp Hin]|(Hret & Hin & Hd)]
    by exact (unanswered_run env tm es s1 HI1 Hw Hun).
  - (* still waiting: the deadline lies ahead *)
    destruct (inv_timers s2 HI2 tm Hin) as [_ Hlt]. simpl in Hlt, Hp.
    destruct (inv_pending s2 HI2 _ _ Hp) as (_ & _ & Hunset).
    destruct (unsettled_outcome p s2 Hunset) as [Ho Hn].
    split; [done|]. intros ?. lia.
  - (* timed out: the deadline has passed *)
    simpl in Hd, Hin, Hret. split; [intros ?; lia|]. intros _.
    destruct (settled_outcome p timeout s2 HI2 Hin) as [Ho Hn].
    destruct (settled_for_good env s2 id p timeout es' event HI2 Hret Hin Hk)
      as (? & ? & ? & ?).
    destruct Hret as [Hnone _]. done.
Qed.

Lemma unanswered_call_times_out_witness :
  let s := constructor wallet_env in
  let event := from_window 0 "https://wallet.frontiertower.io"
                 (response_msg "1000-0" (VStr "late-result")) in
  let timeout := Rejected (mkError "Request timeout") in
  let s1 := request wallet_env 1000 "wallet:getBalance" VUndefined s in
  let early := run wallet_env s1 [EvElapse 29999] in
  let s2 := run wallet_env s1 [EvElapse 30000] in
  let s3 := run wallet_env s2 [EvElapse 5] in
  (pendingRequests early !! "1000-0" = Some 0%N
   ∧ settlements 0 early = 0%nat ∧ outcome 0 early = None)
  ∧ (pendingRequests s2 !! "1000-0" = None
     ∧ settlements 0 s2 = 1%nat ∧ outcome 0 s2 = Some timeout
     ∧ handleMessage wallet_env event s3 = Return s3
     ∧ dispatch wallet_env event s3 = s3
     ∧ settlements 0 s3 = 1%nat ∧ outcome 0 s3 = Some timeout).
Proof.
  intros s event timeout s1 early s2 s3. split.
  - apply (proj1 (unanswered_call_times_out wallet_env s 1000
                    "wallet:getBalance" VUndefined [EvElapse 29999] [] event
                    (ex_intro _ [] eq_refl) eq_refl eq_refl)).
    vm_compute. reflexivity.
  - apply (proj2 (unanswered_call_times_out wallet_env s 1000
                    "wallet:getBalance" VUndefined [EvElapse 30000]
                    [EvElapse 5] event
                    (ex_intro _ [] eq_refl) eq_refl eq_refl)).
    vm_compute. discriminate.
Defined.

(** C2.  The claim fails on the code when the instance is destroyed before
    the deadline: the call is made, [destroy] runs, no message is delivered
    and 60000 milliseconds pass.  The timer of the call finds the table
    empty and does nothing, so the promise is never rejected with
    ["Request timeout"]: it has no settlement at all. *)
Lemma destroyed_call_never_times_out :
  let es := [EvDestroy; EvElapse 30000; EvElapse 30000] in
  let s := run wallet_env
             (request wallet_env 1000 "wallet:getBalance" VUndefined
                (constructor wallet_env)) es in
  forallb (λ e, negb (answers wallet_env "1000-0" e)) es = true
  ∧ elapsed es = 60000%N
  ∧ settlements 0 s = 0%nat ∧ outcome 0 s = None.
Proof. vm_compute. done. Qed.

Example timeout_scenario :
  let s := run wallet_env (constructor wallet_env)
    [EvRequest 1000 "wallet:getBalance" VUndefined; EvElapse 29999] in
  outcome 0 s = None
  ∧ outcome 0 (run wallet_env s [EvElapse 1])
    = Some (Rejected (mkError "Request timeout"))
  ∧ pendingRequests (run wallet_env s [EvElapse 1]) = ∅.
Proof. vm_compute. done. Qed.

(** * Further properties of the code *)

(** ** [getParentOrigin] *)

Lemma truthy_cases x :
  (x = "" ∧ Detection.truthy x = false) ∨ (x ≠ "" ∧ Detection.truthy x = true).
Proof.
  destruct (decide (x = "")) as [->|Hne]; [by left|right].
  split; [done|by apply truthy_true].
Qed.

(** X1.  [getParentOrigin] throws in one situation only: the window is
    framed, the referrer is not empty and [new URL] rejects it.  That
    [window.parent.location.origin] cannot be read across origins never
    escapes the function. *)
Theorem getParentOrigin_throws_iff env :
  getParentOrigin env = Throw
  ↔ parent env ≠ self env ∧ referrer env ≠ ""
    ∧ URL_origin env (referrer env) = Throw.
Proof.
  unfold getParentOrigin, getParentOrigin_try.
  destruct (decide (parent env = self env)) as [Hpar|Hpar].
  - rewrite bool_decide_eq_true_2 by done. simpl. split; [done|tauto].
  - rewrite bool_decide_eq_false_2 by done. simpl.
    destruct (truthy_cases (referrer env)) as [[Href ->]|[Href ->]].
    + destruct (parent_location_origin env); simpl; split; try done; tauto.
    + destruct (URL_origin env (referrer env)); simpl; split; try done.
      intros (_ & _ & ?). done.
Qed.

(** X2.  Outside a frame [getParentOrigin] returns [null], also when there
    is a referrer.  In a frame the referrer decides whenever there is one:
    its origin is returned and the location of the parent is not consulted.
    Without a referrer the origin of the parent's location is returned if it
    can be read, and [null] if reading it throws. *)
Theorem getParentOrigin_cases env :
  (parent env = self env → getParentOrigin env = Return None)
  ∧ (∀ o, parent env ≠ self env → referrer env ≠ "" →
       URL_origin env (referrer env) = Return o →
       getParentOrigin env = Return (Some o))
  ∧ (parent env ≠ self env → referrer env = "" →
       getParentOrigin env
       = match parent_location_origin env with
         | Return o => Return (Some o)
         | Throw => Return None
         end).
Proof.
  unfold getParentOrigin, getParentOrigin_try. split_and!.
  - intros Hpar. by rewrite bool_decide_eq_true_2.
  - intros o Hpar Href Ho. rewrite bool_decide_eq_false_2 by done. simpl.
    by rewrite (truthy_true _ Href), Ho.
  - intros Hpar Href. rewrite bool_decide_eq_false_2 by done. simpl.
    rewrite Href. simpl. by destruct (parent_location_origin env).
Qed.

Lemma getParentOrigin_cases_witness :
  getParentOrigin standalone_env = Return None
  ∧ getParentOrigin local_env = Return (Some "https://evil.example")
  ∧ getParentOrigin
      {| self := 1; parent := 0; top := 0; referrer := "";
         URL_origin := sample_origin; parent_location_origin := Throw |}
    = Return None.
Proof.
  split_and!.
  - apply (proj1 (getParentOrigin_cases standalone_env)). reflexivity.
  - apply (proj1 (proj2 (getParentOrigin_cases local_env)));
      [discriminate|discriminate|reflexivity].
  - apply (proj2 (proj2 (getParentOrigin_cases
             {| self := 1; parent := 0; top := 0; referrer := "";
                URL_origin := sample_origin;
                parent_location_origin := Throw |})));
      [discriminate|reflexivity].
Defined.

(** X3.  Whenever the origin comparing [isInFrontierApp] answers true, the
    window is framed and [getParentOrigin] returns an origin, not [null];
    that origin or the origin of the parent's location is in the allow
    list, and without a referrer the returned origin itself is. *)
Theorem isInFrontierApp_has_parent_origin env :
  Detection.isInFrontierApp env = Return true →
  parent env ≠ self env
  ∧ ∃ o, getParentOrigin env = Return (Some o)
      ∧ (Detection.includes Detection.ALLOWED_ORIGINS o = true
         ∨ ∃ po, parent_location_origin env = Return po
                 ∧ Detection.includes Detection.ALLOWED_ORIGINS po = true)
      ∧ (referrer env = "" →
         Detection.includes Detection.ALLOWED_ORIGINS o = true).
Proof.
  unfold Detection.isInFrontierApp, Detection.isInFrontierApp_try,
    getParentOrigin, getParentOrigin_try.
  destruct (decide (parent env = self env)) as [Hpar|Hpar].
  { rewrite bool_decide_eq_true_2 by done. discriminate. }
  rewrite !bool_decide_eq_false_2 by done. simpl.
  destruct (truthy_cases (referrer env)) as [[Href ->]|[Href ->]]; simpl.
  - destruct (parent_location_origin env) as [po|] eqn:Hpo; simpl; [|discriminate].
    destruct (Detection.truthy po && Detection.includes Detection.ALLOWED_ORIGINS po)
      eqn:Hin; [|discriminate].
    apply andb_true_iff in Hin as [_ Hin]. intros _. split; [done|].
    exists po. split_and!; [done|by left|done].
  - destruct (URL_origin env (referrer env)) as [o|] eqn:Ho; simpl; [|discriminate].
    destruct (Detection.truthy o && Detection.includes Detection.ALLOWED_ORIGINS o)
      eqn:Hin.
    + apply andb_true_iff in Hin as [_ Hin]. intros _. split; [done|].
      exists o. split_and!; [done|by left|done].
    + destruct (parent_location_origin env) as [po|] eqn:Hpo; simpl.
      * destruct (Detection.truthy po
                  && Detection.includes Detection.ALLOWED_ORIGINS po) eqn:Hin';
          [|discriminate].
        apply andb_true_iff in Hin' as [_ Hin']. intros _. split; [done|].
        exists o. split_and!; [done|right; by exists po|done].
      * intros [= Hin']. split; [done|].
        exists o. split_and!; [done|by left|done].
Qed.

Lemma isInFrontierApp_has_parent_origin_witness :
  parent wallet_env ≠ self wallet_env
  ∧ ∃ o, getParentOrigin wallet_env = Return (Some o)
      ∧ (Detection.includes Detection.ALLOWED_ORIGINS o = true
         ∨ ∃ po, parent_location_origin wallet_env = Return po
                 ∧ Detection.includes Detection.ALLOWED_ORIGINS po = true)
      ∧ (referrer wallet_env = "" →
         Detection.includes Detection.ALLOWED_ORIGINS o = true).
Proof.
  apply (isInFrontierApp_has_parent_origin wallet_env). reflexivity.
Defined.

Example parent_origin_outside_allow_list :
  Detection.isInFrontierApp local_env = Return true
  ∧ getParentOrigin local_env = Return (Some "https://evil.example").
Proof. vm_compute. done. Qed.

(** ** The readiness announcement *)

Lemma outbox_run env es s :
  ∃ rest,
    outbox (run env s es) = outbox s ++ rest
    ∧ Forall (λ m, is_Some (sent_id m)) rest
    ∧ length rest = length (filter (λ e, is_request e = true) es).
Proof.
  revert s. induction es as [|e es IH]; intros s.
  - exists []. by rewrite app_nil_r.
  - destruct (IH (step env s e)) as (rest & Hout & Hall & Hlen).
    change (run env s (e :: es)) with (run env (step env s e) es).
    rewrite Hout, outbox_step.
    destruct e as [now type payload|event|dt|].
    + eexists (_ :: rest). rewrite <- app_assoc. split; [done|]. split.
      * constructor; [by eexists|done].
      * rewrite filter_cons_True by done. simpl. by rewrite Hlen.
    + exists rest. rewrite app_nil_r, filter_cons_False by done. done.
    + exists rest. rewrite app_nil_r, filter_cons_False by done. done.
    + exists rest. rewrite app_nil_r, filter_cons_False by done. done.
Qed.

(** X4.  In every run of an instance the first message posted is the
    announcement [{type: 'app:ready', payload: null}], sent to the parent
    window with target origin ["*"] before anything else; it carries no
    request identifier and is never sent again: all later messages are the
    requests, one per call, each with its identifier. *)
Theorem ready_announced_once env es :
  ∃ rest,
    outbox (run env (constructor env) es) = ready_message env :: rest
    ∧ sent_id (ready_message env) = None
    ∧ Forall (λ m, is_Some (sent_id m)) rest
    ∧ length rest = length (filter (λ e, is_request e = true) es).
Proof.
  destruct (outbox_run env es (constructor env)) as (rest & Hout & Hall & Hlen).
  exists rest. by rewrite Hout.
Qed.

(** ** Issuing a call *)

(** X5.  In a state the instance can be in, the identifier the next call of
    [request] generates is neither tracked nor was it ever sent, so the call
    adds one entry to the table and overwrites none: every other entry is
    as before. *)
Theorem request_tracks_fresh_id env now type payload s :
  reachable env s →
  let id := next_id now s in
  let s1 := request env now type payload s in
  pendingRequests s !! id = None
  ∧ (id ∉ sent_ids s)
  ∧ pendingRequests s1 !! id = Some (requestId s)
  ∧ (∀ k, k ≠ id → pendingRequests s1 !! k = pendingRequests s !! k)
  ∧ size (pendingRequests s1) = S (size (pendingRequests s)).
Proof.
  intros Hreach id s1. pose proof (reachable_Inv _ _ Hreach) as HI.
  assert (pendingRequests s !! id = None) as Hnone.
  { destruct (pendingRequests s !! id) as [q|] eqn:Hq; [|done].
    destruct (inv_pending s HI id q Hq) as ([t Ht] & Hlt & _).
    apply mkId_inj in Ht as [_ Ht]. lia. }
  split_and!; [done| | | |].
  - intros Hin. destruct (inv_sent s HI id Hin) as (t & c & Ht & Hlt).
    apply mkId_inj in Ht as [_ Ht]. lia.
  - simpl. apply lookup_insert_eq.
  - intros k Hk. simpl. by rewrite lookup_insert_ne.
  - simpl. by apply map_size_insert_None.
Qed.

Lemma request_tracks_fresh_id_witness :
  let s := run wallet_env (constructor wallet_env)
             [EvRequest 1000 "wallet:getBalance" VUndefined] in
  let id := next_id 1000 s in
  let s1 := request wallet_env 1000 "storage:get" (VObj [("key", VStr "k")]) s in
  pendingRequests s !! id = None
  ∧ (id ∉ sent_ids s)
  ∧ pendingRequests s1 !! id = Some (requestId s)
  ∧ (∀ k, k ≠ id → pendingRequests s1 !! k = pendingRequests s !! k)
  ∧ size (pendingRequests s1) = S (size (pendingRequests s)).
Proof.
  intros s.
  apply (request_tracks_fresh_id wallet_env 1000 "storage:get"
           (VObj [("key", VStr "k")]) s).
  eexists. reflexivity.
Defined.

(** X6.  A call that is answered leaves no trace in the table: after
    [request] and the delivery of a reply from the parent window that names
    the new identifier, the table is what it was before the call, and the
    promise of the call has the settlement of the reply. *)
Theorem answered_call_restores_table env now type payload s event o :
  reachable env s →
  listening s = true →
  source event = Some (parent env) →
  get (data event) "requestId" = Return (VStr (next_id now s)) →
  reply (data event) = Return o →
  let s2 := dispatch env event (request env now type payload s) in
  pendingRequests s2 = pendingRequests s
  ∧ outcome (requestId s) s2 = Some o
  ∧ settlements (requestId s) s2 = 1%nat.
Proof.
  intros Hreach Hl Hsrc Hk Ho s2.
  pose proof (reachable_Inv _ _ Hreach) as HI.
  set (s1 := request env now type payload s).
  assert (Inv s1) as HI1 by (by apply Inv_request).
  assert (pendingRequests s1 !! next_id now s = Some (requestId s)) as Hp
    by (simpl; apply lookup_insert_eq).
  assert (s2 = completed (next_id now s) (requestId s) o s1) as ->.
  { assert (listening s1 = true) as Hl1 by exact Hl.
    unfold s2, dispatch. fold s1. rewrite Hl1.
    by rewrite (handleMessage_match _ _ _ _ _ Hsrc Hk Hp), Ho. }
  destruct (settled_outcome (requestId s) o
              (completed (next_id now s) (requestId s) o s1)) as [Hout Hn];
    [by apply Inv_completed|apply completed_settled|].
  split_and!; [|done..].
  simpl. rewrite delete_insert_eq. apply delete_id.
  destruct (pendingRequests s !! next_id now s) as [q|] eqn:Hq; [|done].
  destruct (inv_pending s HI _ q Hq) as ([t Ht] & Hlt & _).
  apply mkId_inj in Ht as [_ Ht]. lia.
Qed.

Lemma answered_call_restores_table_witness :
  let s := constructor wallet_env in
  let event := from_window 0 "https://wallet.frontiertower.io"
                 (response_msg "1000-0" (VStr "v")) in
  let s2 := dispatch wallet_env event
              (request wallet_env 1000 "storage:get" (VObj [("key", VStr "k")]) s) in
  pendingRequests s2 = pendingRequests s
  ∧ outcome (requestId s) s2 = Some (Resolved (VStr "v"))
  ∧ settlements (requestId s) s2 = 1%nat.
Proof.
  intros s event.
  apply (answered_call_restores_table wallet_env 1000 "storage:get"
           (VObj [("key", VStr "k")]) s event (Resolved (VStr "v")));
    [by exists []|reflexivity..].
Defined.

(** ** Settlements *)

(** X7.  However messages, timers, calls and [destroy] interleave, the
    completion functions of a call are invoked at most once, and never for
    a call that has not been made yet. *)
Theorem settled_at_most_once env s p :
  reachable env s →
  (settlements p s ≤ 1)%nat
  ∧ ((requestId s ≤ p)%N → settlements p s = 0%nat ∧ outcome p s = None)
  ∧ (settlements p s = 1%nat ↔ is_Some (outcome p s)).
Proof.
  intros Hreach. pose proof (reachable_Inv _ _ Hreach) as HI.
  destruct (decide (p ∈ (settled s).*1)) as [Hin|Hnin].
  - pose proof Hin as Hin'.
    apply list_elem_of_fmap in Hin as ([q o] & -> & Hin).
    destruct (settled_outcome q o s HI Hin) as [Ho Hn]. simpl in *.
    rewrite Hn, Ho. split_and!; [lia| |by split; eauto].
    intros Hle. apply (inv_settled s HI) in Hin'. lia.
  - destruct (unsettled_outcome p s Hnin) as [Ho Hn].
    rewrite Hn, Ho. split_and!; [lia|done|].
    split; [discriminate|]. by intros [? ?].
Qed.

Lemma settled_at_most_once_witness :
  let s := run wallet_env (constructor wallet_env)
    [EvRequest 1000 "wallet:getBalance" VUndefined;
     EvMessage (from_window 0 "https://wallet.frontiertower.io"
                  (response_msg "1000-0" (VStr "1")));
     EvMessage (from_window 0 "https://wallet.frontiertower.io"
                  (error_msg "1000-0" "again"));
     EvElapse 30000] in
  (settlements 0 s ≤ 1)%nat
  ∧ ((requestId s ≤ 0)%N → settlements 0 s = 0%nat ∧ outcome 0 s = None)
  ∧ (settlements 0 s = 1%nat ↔ is_Some (outcome 0 s)).
Proof.
  intros s. apply (settled_at_most_once wallet_env s 0). eexists. reflexivity.
Defined.

(** ** What a message can and cannot do *)

(** X8.  A message that does not name a tracked identifier changes nothing,
    whoever sent it and whatever its data: an unknown or already settled
    identifier, an identifier that is not a string, no identifier at all.
    The handler throws on such a message only when it comes from the parent
    window and its data is [undefined] or [null], and the state is then
    left as it was too. *)
Theorem untracked_message_is_ignored env event s :
  (∀ id, get (data event) "requestId" = Return (VStr id) →
         pendingRequests s !! id = None) →
  dispatch env event s = s
  ∧ (handleMessage env event s = Throw
     ↔ source event = Some (parent env)
       ∧ (data event = VUndefined ∨ data event = VNull)).
Proof.
  intros Hun.
  destruct (decide (source event = Some (parent env))) as [Hsrc|Hsrc].
  - destruct (get (data event) "requestId") as [key|] eqn:Hk.
    + assert (Map_get (pendingRequests s) key = None) as Hm.
      { destruct key; try done. simpl. by apply Hun. }
      pose proof (handleMessage_unknown env event s key Hk Hm) as Hh.
      split.
      * unfold dispatch. rewrite Hh. by destruct (listening s).
      * rewrite Hh. split; [done|]. intros [_ [Hd|Hd]]; by rewrite Hd in Hk.
    + assert (handleMessage env event s = Throw) as Hh.
      { unfold handleMessage. rewrite bool_decide_eq_true_2 by done.
        simpl negb. cbn iota. by rewrite Hk. }
      split.
      * unfold dispatch. rewrite Hh. by destruct (listening s).
      * rewrite Hh. split; [|done]. intros _. split; [done|].
        destruct (data event); simpl in Hk; try discriminate; auto.
  - pose proof (handleMessage_other_source env event s Hsrc) as Hh. split.
    + unfold dispatch. rewrite Hh. by destruct (listening s).
    + rewrite Hh. split; [done|]. by intros [? _].
Qed.

Lemma untracked_message_is_ignored_witness :
  let s := run wallet_env (constructor wallet_env)
             [EvRequest 1000 "wallet:getBalance" VUndefined] in
  let event := from_window 0 "https://wallet.frontiertower.io" VNull in
  dispatch wallet_env event s = s
  ∧ (handleMessage wallet_env event s = Throw
     ↔ source event = Some (parent wallet_env)
       ∧ (data event = VUndefined ∨ data event = VNull)).
Proof.
  intros s event. apply (untracked_message_is_ignored wallet_env event s).
  intros id Hid. discriminate Hid.
Defined.

(** X9.  Handling a message never posts a message, never arms or disarms a
    timer and never touches the counter or the listener; it adds no entry to
    the table and removes at most one, and it invokes the completion
    functions of at most one call. *)
Theorem message_touches_table_and_log_only env event s :
  let s' := dispatch env event s in
  requestId s' = requestId s ∧ timers s' = timers s ∧ clock s' = clock s
  ∧ outbox s' = outbox s ∧ listening s' = listening s
  ∧ (∀ k p, pendingRequests s' !! k = Some p → pendingRequests s !! k = Some p)
  ∧ (size (pendingRequests s) ≤ S (size (pendingRequests s')))%nat
  ∧ ∃ l, settled s' = settled s ++ l ∧ (length l ≤ 1)%nat.
Proof.
  intros s'. unfold s', dispatch.
  assert (∃ l, settled s = settled s ++ l ∧ (length l ≤ 1)%nat) as Hnil
    by (exists []; rewrite app_nil_r; split; [done|simpl; lia]).
  destruct (listening s) eqn:Hl;
    [|split_and!; first [done|lia|exact Hnil]].
  message_cases env event s;
    [split_and!; first [done|lia|exact Hnil]..|].
  split_and!; try done.
  - intros k q. simpl. by intros [_ ?]%lookup_delete_Some.
  - simpl. rewrite map_size_delete_Some by (by eexists). lia.
  - by eexists [_].
Qed.

(** ** Where settlements come from *)

Lemma settled_timeouts_origin l s x :
  x ∈ settled (foldl (λ acc tm, on_timeout tm acc) s l) →
  x ∈ settled s ∨ x.2 = Rejected (mkError "Request timeout").
Proof.
  revert s. induction l as [|tm l IH]; intros s; simpl; [by left|].
  intros [Hin|Ht]%IH; [|by right].
  unfold on_timeout in Hin. case_bool_decide; [|by left].
  simpl in Hin. apply elem_of_app in Hin as [?|Hin]; [by left|].
  apply list_elem_of_singleton in Hin. subst x. by right.
Qed.

Lemma settled_step_origin env s e x :
  x ∈ settled (step env s e) →
  x ∈ settled s ∨ x.2 = Rejected (mkError "Request timeout") ∨ yields env x.2 e.
Proof.
  destruct e as [now type payload|event|dt|]; simpl; [by left| | |by left].
  - unfold dispatch. destruct (listening s); [|by left].
    message_cases env event s; [by left..|].
    simpl. intros [?|Hin]%elem_of_app; [by left|].
    apply list_elem_of_singleton in Hin. subst x. right; right. done.
  - unfold elapse. intros [Hin|Ht]%settled_timeouts_origin; [by left|].
    right; by left.
Qed.

Lemma outcome_settled p o s : outcome p s = Some o → (p, o) ∈ settled s.
Proof.
  unfold outcome. destruct (head _) as [[q o']|] eqn:Hh; [|done].
  intros [= <-]. apply head_Some_elem_of, list_elem_of_filter in Hh as [Hq Hin].
  simpl in Hq. by subst q.
Qed.

Lemma settled_run_origin env es s x :
  x ∈ settled (run env s es) →
  x ∈ settled s ∨ x.2 = Rejected (mkError "Request timeout")
  ∨ ∃ e, e ∈ es ∧ yields env x.2 e.
Proof.
  revert s. induction es as [|e es IH]; intros s; simpl; [by left|].
  intros [Hin|[Ht|(e' & He' & Hy)]]%IH.
  - apply settled_step_origin in Hin as [?|[?|Hy]]; [by left|right; by left|].
    right; right. exists e. split; [by left|done].
  - right; by left.
  - right; right. exists e'. split; [by right|done].
Qed.

(** X10.  Whatever a promise of an instance was settled with, it is either
    the rejection ["Request timeout"] or the settlement the handler derived
    from a message of the parent window that occurred in the run: calls are
    resolved by such messages only, never by a timer, by [destroy] or by
    another call. *)
Theorem settlements_come_from_parent_or_timer env es p o :
  outcome p (run env (constructor env) es) = Some o →
  o = Rejected (mkError "Request timeout")
  ∨ ∃ event, EvMessage event ∈ es
      ∧ source event = Some (parent env) ∧ reply (data event) = Return o.
Proof.
  intros Ho%outcome_settled.
  apply settled_run_origin in Ho as [Hin|[Ht|(e & He & Hy)]].
  - simpl in Hin. by apply elem_of_nil in Hin.
  - by left.
  - right. destruct e as [| event | |]; try done. by exists event.
Qed.

Lemma settlements_come_from_parent_or_timer_witness :
  let event := from_window 0 "https://wallet.frontiertower.io"
                 (response_msg "1000-0" (VStr "v")) in
  let es := [EvRequest 1000 "storage:get" (VObj [("key", VStr "k")]);
             EvMessage event] in
  Resolved (VStr "v") = Rejected (mkError "Request timeout")
  ∨ ∃ event, EvMessage event ∈ es
      ∧ source event = Some (parent wallet_env)
      ∧ reply (data event) = Return (Resolved (VStr "v")).
Proof.
  intros event es.
  apply (settlements_come_from_parent_or_timer wallet_env es 0).
  vm_compute. reflexivity.
Defined.

(** ** Replies in any order *)

Lemma dispatch_match env event s id p o :
  listening s = true →
  source event = Some (parent env) →
  get (data event) "requestId" = Return (VStr id) →
  pendingRequests s !! id = Some p →
  reply (data event) = Return o →
  dispatch env event s = completed id p o s.
Proof.
  intros Hl Hsrc Hk Hp Ho. unfold dispatch.
  by rewrite Hl, (handleMessage_match _ _ _ _ _ Hsrc Hk Hp), Ho.
Qed.

Lemma two_replies env s e1 e2 id1 id2 p1 p2 o1 o2 :
  Inv s → listening s = true → id1 ≠ id2 →
  pendingRequests s !! id1 = Some p1 → pendingRequests s !! id2 = Some p2 →
  source e1 = Some (parent env) → source e2 = Some (parent env) →
  get (data e1) "requestId" = Return (VStr id1) →
  get (data e2) "requestId" = Return (VStr id2) →
  reply (data e1) = Return o1 → reply (data e2) = Return o2 →
  let s' := run env s [EvMessage e1; EvMessage e2] in
  pendingRequests s' = delete id2 (delete id1 (pendingRequests s))
  ∧ outcome p1 s' = Some o1 ∧ outcome p2 s' = Some o2.
Proof.
  intros HI Hl Hne Hp1 Hp2 Hs1 Hs2 Hk1 Hk2 Ho1 Ho2 s'.
  assert (pendingRequests (completed id1 p1 o1 s) !! id2 = Some p2) as Hp2'
    by (simpl; by rewrite lookup_delete_ne).
  assert (s' = completed id2 p2 o2 (completed id1 p1 o1 s)) as ->.
  { unfold s'. simpl. rewrite (dispatch_match _ _ _ _ _ _ Hl Hs1 Hk1 Hp1 Ho1).
    by rewrite (dispatch_match _ _ _ id2 p2 o2). }
  assert (Inv (completed id2 p2 o2 (completed id1 p1 o1 s))) as HI'
    by (apply Inv_completed; [by apply Inv_completed|done]).
  split_and!; [done| |].
  - apply (settled_outcome p1 o1 _ HI'). apply settled_completed, completed_settled.
  - apply (settled_outcome p2 o2 _ HI'). apply completed_settled.
Qed.

(** X11.  Replies are matched by identifier, not by order of arrival: when
    two calls are tracked and the parent window answers both, each call
    gets the settlement of its own reply and the table ends up the same,
    whichever reply arrives first. *)
Theorem replies_commute env s e1 e2 id1 id2 p1 p2 o1 o2 :
  reachable env s → listening s = true → id1 ≠ id2 →
  pendingRequests s !! id1 = Some p1 → pendingRequests s !! id2 = Some p2 →
  source e1 = Some (parent env) → source e2 = Some (parent env) →
  get (data e1) "requestId" = Return (VStr id1) →
  get (data e2) "requestId" = Return (VStr id2) →
  reply (data e1) = Return o1 → reply (data e2) = Return o2 →
  let sa := run env s [EvMessage e1; EvMessage e2] in
  let sb := run env s [EvMessage e2; EvMessage e1] in
  pendingRequests sa = pendingRequests sb
  ∧ outcome p1 sa = Some o1 ∧ outcome p1 sb = Some o1
  ∧ outcome p2 sa = Some o2 ∧ outcome p2 sb = Some o2.
Proof.
  intros Hreach Hl Hne Hp1 Hp2 Hs1 Hs2 Hk1 Hk2 Ho1 Ho2 sa sb.
  pose proof (reachable_Inv _ _ Hreach) as HI.
  destruct (two_replies env s e1 e2 id1 id2 p1 p2 o1 o2) as (Ha & Ha1 & Ha2);
    try done.
  destruct (two_replies env s e2 e1 id2 id1 p2 p1 o2 o1) as (Hb & Hb2 & Hb1);
    try done.
  split_and!; try done.
  fold sa in Ha. fold sb in Hb. rewrite Ha, Hb. apply delete_delete.
Qed.

Lemma replies_commute_witness :
  let s := run wallet_env (constructor wallet_env)
    [EvRequest 1000 "wallet:getBalance" VUndefined;
     EvRequest 1000 "storage:get" (VObj [("key", VStr "k")])] in
  let e1 := from_window 0 "https://wallet.frontiertower.io"
              (response_msg "1000-0" (VNum 42)) in
  let e2 := from_window 0 "https://wallet.frontiertower.io"
              (error_msg "1000-1" "no such key") in
  let sa := run wallet_env s [EvMessage e1; EvMessage e2] in
  let sb := run wallet_env s [EvMessage e2; EvMessage e1] in
  pendingRequests sa = pendingRequests sb
  ∧ outcome 0 sa = Some (Resolved (VNum 42))
  ∧ outcome 0 sb = Some (Resolved (VNum 42))
  ∧ outcome 1 sa = Some (Rejected (mkError "no such key"))
  ∧ outcome 1 sb = Some (Rejected (mkError "no such key")).
Proof.
  intros s e1 e2.
  apply (replies_commute wallet_env s e1 e2 "1000-0" "1000-1" 0 1
           (Resolved (VNum 42)) (Rejected (mkError "no such key")));
    [by eexists|reflexivity|discriminate|by vm_compute|by vm_compute
    |reflexivity..].
Defined.

(** ** The table does not leak *)

Lemma pending_on_timeout_clears tm s :
  pendingRequests (on_timeout tm s) !! timer_requestId tm = None.
Proof.
  unfold on_timeout. case_bool_decide as H; simpl.
  - apply lookup_delete_eq.
  - destruct (pendingRequests s !! timer_requestId tm) eqn:Hp; [|done].
    destruct H. by eexists.
Qed.

Lemma pending_timeouts_clears l s tm :
  tm ∈ l →
  pendingRequests (foldl (λ acc tm, on_timeout tm acc) s l) !! timer_requestId tm
  = None.
Proof.
  revert s. induction l as [|tm' l IH]; intros s Hin; [by apply elem_of_nil in Hin|].
  apply elem_of_cons in Hin as [->|Hin]; simpl.
  - apply pending_timeouts_None, pending_on_timeout_clears.
  - by apply IH.
Qed.

Lemma pending_timeouts_sub l s k p :
  pendingRequests (foldl (λ acc tm, on_timeout tm acc) s l) !! k = Some p →
  pendingRequests s !! k = Some p.
Proof.
  revert s. induction l as [|tm l IH]; intros s; simpl; [done|].
  intros H%IH. unfold on_timeout in H. case_bool_decide; [|done].
  simpl in H. by apply lookup_delete_Some in H as [_ ?].
Qed.

Lemma armed_step env s e : armed s → armed (step env s e).
Proof.
  intros Ha. destruct e as [now type payload|event|dt|]; simpl.
  - intros k p. simpl. rewrite lookup_insert_Some.
    intros [[<- <-]|[_ Hk]].
    + eexists. split; [apply elem_of_app; right; by apply list_elem_of_singleton|done].
    + destruct (Ha k p Hk) as (tm & Hin & ? & ?).
      exists tm. split; [apply elem_of_app; by left|done].
  - unfold dispatch. destruct (listening s); [|done].
    message_cases env event s; [done..|].
    intros k q. simpl. intros [_ Hk]%lookup_delete_Some. by apply Ha.
  - unfold elapse. intros k p Hk. rewrite timers_timeouts. simpl.
    pose proof (pending_timeouts_sub _ _ _ _ Hk) as Hk0. simpl in Hk0.
    destruct (Ha k p Hk0) as (tm & Hin & Hid & Hcall).
    exists tm. split; [|done]. apply list_elem_of_filter. split; [|done].
    destruct (due (clock s + dt) tm) eqn:Hdue; [|done].
    rewrite <- Hid, pending_timeouts_clears in Hk; [done|].
    by apply list_elem_of_filter.
  - intros k p. simpl. by rewrite lookup_empty.
Qed.

Lemma deadlines_bounded_step env s e :
  deadlines_bounded s → deadlines_bounded (step env s e).
Proof.
  intros Hb. destruct e as [now type payload|event|dt|]; simpl.
  - intros tm. simpl. rewrite elem_of_app, list_elem_of_singleton.
    intros [Hin| ->]; [by apply Hb|simpl; lia].
  - unfold dispatch. destruct (listening s); [|done].
    by message_cases env event s.
  - unfold elapse. intros tm. rewrite timers_timeouts, clock_timeouts. simpl.
    intros [_ Hin]%list_elem_of_filter. apply Hb in Hin. lia.
  - done.
Qed.

Lemma timers_step_no_request env s e tm :
  is_request e = false → tm ∈ timers (step env s e) → tm ∈ timers s.
Proof.
  destruct e as [now type payload|event|dt|]; simpl; [done| | |done]; intros _.
  - unfold dispatch. destruct (listening s); [|done].
    by message_cases env event s.
  - unfold elapse. rewrite timers_timeouts. simpl.
    by intros [_ ?]%list_elem_of_filter.
Qed.

Lemma timers_run_no_request env es s tm :
  forallb (λ e, negb (is_request e)) es = true →
  tm ∈ timers (run env s es) → tm ∈ timers s.
Proof.
  revert s. induction es as [|e es IH]; intros s; simpl; [done|].
  intros [He Hes]%andb_true_iff Hin. apply negb_true_iff in He.
  eapply timers_step_no_request; [done|]. by apply IH.
Qed.

Lemma armed_bounded_run env es s :
  armed s → deadlines_bounded s →
  armed (run env s es) ∧ deadlines_bounded (run env s es).
Proof.
  revert s. induction es as [|e es IH]; intros s Ha Hb; simpl; [done|].
  apply IH; [by apply armed_step|by apply deadlines_bounded_step].
Qed.

(** X12.  In every state an instance can be in, each tracked identifier
    has an armed timer of its own call, due within 30000 milliseconds.
    Hence no entry stays in the table for longer: once 30000 milliseconds
    have passed without a new call, the table is empty and no timer is
    left, whatever messages arrived or failed to arrive. *)
Theorem table_drains env s es :
  reachable env s →
  forallb (λ e, negb (is_request e)) es = true →
  (30000 ≤ elapsed es)%N →
  armed s ∧ deadlines_bounded s
  ∧ pendingRequests (run env s es) = ∅ ∧ timers (run env s es) = [].
Proof.
  intros Hreach Hes Hel.
  assert (armed s ∧ deadlines_bounded s) as [Ha Hb].
  { destruct Hreach as [es0 ->]. apply armed_bounded_run.
    - intros k p. simpl. by rewrite lookup_empty.
    - intros tm Hin. simpl in Hin. by apply elem_of_nil in Hin. }
  assert (timers (run env s es) = []) as Ht.
  { destruct (timers (run env s es)) as [|tm l] eqn:Hl; [done|].
    assert (tm ∈ timers (run env s es)) as Hin by (rewrite Hl; by left).
    pose proof (inv_timers _ (Inv_run env es s (reachable_Inv _ _ Hreach)) tm Hin)
      as [_ Hlt].
    apply timers_run_no_request, Hb in Hin; [|done].
    rewrite clock_run in Hlt. lia. }
  split_and!; [done..| |done].
  apply map_empty. intros k.
  destruct (pendingRequests (run env s es) !! k) as [p|] eqn:Hk; [|done].
  destruct (armed_bounded_run env es s Ha Hb) as [Ha' _].
  destruct (Ha' k p Hk) as (tm & Hin & _). rewrite Ht in Hin.
  by apply elem_of_nil in Hin.
Qed.

Lemma table_drains_witness :
  let s := run wallet_env (constructor wallet_env)
    [EvRequest 1000 "wallet:getBalance" VUndefined; EvElapse 10000;
     EvRequest 11000 "storage:get" (VObj [("key", VStr "k")])] in
  let es := [EvElapse 20000;
             EvMessage (from_window 1 "https://evil.example"
                          (response_msg "11000-1" VNull));
             EvElapse 10000] in
  armed s ∧ deadlines_bounded s
  ∧ pendingRequests (run wallet_env s es) = ∅
  ∧ timers (run wallet_env s es) = [].
Proof.
  intros s es. apply (table_drains wallet_env s es).
  - eexists. reflexivity.
  - reflexivity.
  - vm_compute. discriminate.
Defined.

(** ** Calls made after [destroy] *)

Lemma waiting_step_deaf env tm s e :
  Inv s → waiting tm s → listening s = false → is_destroy e = false →
  (waiting tm (step env s e) ∨ timed_out tm (step env s e))
  ∧ listening (step env s e) = false.
Proof.
  intros HI Hw Hl Hdes. destruct e as [now type payload|event|dt|].
  - split; [by apply waiting_step|done].
  - simpl. unfold dispatch. rewrite Hl. split; [by left|done].
  - split; [by apply waiting_step|].
    simpl. unfold elapse. by rewrite listening_timeouts.
  - done.
Qed.

Lemma deaf_run env tm es s :
  Inv s → waiting tm s → listening s = false →
  forallb (λ e, negb (is_destroy e)) es = true →
  waiting tm (run env s es) ∨ timed_out tm (run env s es).
Proof.
  revert s. induction es as [|e es IH]; intros s HI Hw Hl Hes; simpl; [by left|].
  simpl in Hes. apply andb_true_iff in Hes as [He Hes]. apply negb_true_iff in He.
  destruct (waiting_step_deaf env tm s e HI Hw Hl He) as [[Hw'|Hto] Hl'].
  - apply IH; [by apply Inv_step|done..].
  - right. by apply timed_out_run.
Qed.

(** X13.  [destroy] does not stop [request] from working, but a call made
    after it can no longer be answered: whatever messages arrive, also ones
    from the parent window that name the call, the call stays pending until
    30000 milliseconds have passed and is then rejected with
    ["Request timeout"] (unless [destroy] is called again before). *)
Theorem call_after_destroy_times_out env s now type payload es :
  reachable env s →
  listening s = false →
  forallb (λ e, negb (is_destroy e)) es = true →
  let id := next_id now s in
  let p := requestId s in
  let s2 := run env (request env now type payload s) es in
  ((elapsed es < 30000)%N →
     pendingRequests s2 !! id = Some p ∧ outcome p s2 = None)
  ∧ ((30000 ≤ elapsed es)%N →
     pendingRequests s2 !! id = None
     ∧ outcome p s2 = Some (Rejected (mkError "Request timeout"))
     ∧ settlements p s2 = 1%nat).
Proof.
  intros Hreach Hl Hes id p s2.
  pose proof (reachable_Inv _ _ Hreach) as HI.
  set (s1 := request env now type payload s).
  set (tm := {| deadline := (clock s + 30000)%N; timer_requestId := id;
                timer_call := p |}).
  assert (Inv s1) as HI1 by (by apply Inv_request).
  assert (waiting tm s1) as Hw.
  { split; simpl.
    - apply lookup_insert_eq.
    - rewrite elem_of_app, list_elem_of_singleton. by right. }
  assert (Inv s2) as HI2 by (by apply Inv_run).
  assert (clock s2 = (clock s + elapsed es)%N) as Hclock
    by (unfold s2; by rewrite clock_run).
  assert (waiting tm s2 ∨ timed_out tm s2) as [[Hp Hin]|(Hret & Hin & Hd)]
    by exact (deaf_run env tm es s1 HI1 Hw Hl Hes).
  - destruct (inv_timers s2 HI2 tm Hin) as [_ Hlt]. simpl in Hlt, Hp.
    destruct (inv_pending s2 HI2 _ _ Hp) as (_ & _ & Hunset).
    destruct (unsettled_outcome p s2 Hunset) as [Ho Hn].
    split; [done|]. intros ?. lia.
  - simpl in Hd, Hin, Hret. split; [intros ?; lia|]. intros _.
    destruct (settled_outcome p _ s2 HI2 Hin) as [Ho Hn].
    destruct Hret as [Hnone _]. done.
Qed.

Lemma call_after_destroy_times_out_witness :
  let s := run wallet_env (constructor wallet_env) [EvDestroy] in
  let answer := EvMessage (from_window 0 "https://wallet.frontiertower.io"
                             (response_msg "1000-0" (VStr "v"))) in
  let s1 := request wallet_env 1000 "storage:get" (VObj [("key", VStr "k")]) s in
  (pendingRequests (run wallet_env s1 [answer; EvElapse 29999]) !! "1000-0"
   = Some 0%N
   ∧ outcome 0 (run wallet_env s1 [answer; EvElapse 29999]) = None)
  ∧ (pendingRequests (run wallet_env s1 [answer; EvElapse 30000]) !! "1000-0"
     = None
     ∧ outcome 0 (run wallet_env s1 [answer; EvElapse 30000])
       = Some (Rejected (mkError "Request timeout"))
     ∧ settlements 0 (run wallet_env s1 [answer; EvElapse 30000]) = 1%nat).
Proof.
  intros s answer s1. split.
  - apply (proj1 (call_after_destroy_times_out wallet_env s 1000 "storage:get"
                    (VObj [("key", VStr "k")]) [answer; EvElapse 29999]
                    (ex_intro _ [EvDestroy] eq_refl) eq_refl eq_refl)).
    vm_compute. reflexivity.
  - apply (proj2 (call_after_destroy_times_out wallet_env s 1000 "storage:get"
                    (VObj [("key", VStr "k")]) [answer; EvElapse 30000]
                    (ex_intro _ [EvDestroy] eq_refl) eq_refl eq_refl)).
    vm_compute. discriminate.
Defined.

(** ** The facades *)

Lemma invoke_is_request env now c s :
  ∃ type payload, invoke env now c s = request env now type payload s.
Proof. destruct c; simpl; eauto. Qed.

Lemma invoke_last env now c s :
  ∃ m, last (outbox (invoke env now c s)) = Some m
       ∧ target m = parent env ∧ targetOrigin m = "*"
       ∧ sent_id m = Some (next_id now s).
Proof.
  destruct (invoke_is_request env now c s) as (type & payload & ->).
  simpl. rewrite last_snoc. by eexists.
Qed.

(** X14.  Every method of the storage, chain and user facades, and every
    argument-less method of the wallet facade, is one call of [request]: it
    posts one message to the parent window with target origin ["*"] and the
    next identifier.  The method name and the payload of that message
    determine which method was called and with which arguments, whatever
    the states and the times of the calls. *)
Theorem facade_message_determines_call env env' now now' c c' s s' m m' :
  last (outbox (invoke env now c s)) = Some m →
  last (outbox (invoke env' now' c' s')) = Some m' →
  (∃ type payload, invoke env now c s = request env now type payload s)
  ∧ target m = parent env ∧ targetOrigin m = "*"
  ∧ sent_id m = Some (next_id now s)
  ∧ (wire m = wire m' → c = c').
Proof.
  intros Hm Hm'.
  destruct (invoke_last env now c s) as (m0 & Hm0 & Htarget & Horigin & Hid).
  rewrite Hm in Hm0. injection Hm0 as <-.
  split_and!; [apply invoke_is_request|done..|].
  clear Htarget Horigin Hid.
  destruct c, c'; simpl in Hm, Hm'; rewrite last_snoc in Hm, Hm';
    injection Hm as <-; injection Hm' as <-;
    unfold wire; simpl; intros Heq; congruence.
Qed.

Lemma facade_message_determines_call_witness :
  let s := constructor wallet_env in
  let m := {| target := 0;
              posted := VObj [("type", VStr "storage:set");
                              ("requestId", VStr "1000-0");
                              ("payload", VObj [("key", VStr "k");
                                                ("value", VNum 7)])];
              targetOrigin := "*" |} in
  (∃ type payload,
     invoke wallet_env 1000 (Storage_set "k" (VNum 7)) s
     = request wallet_env 1000 type payload s)
  ∧ target m = parent wallet_env ∧ targetOrigin m = "*"
  ∧ sent_id m = Some (next_id 1000 s)
  ∧ (wire m = wire m → Storage_set "k" (VNum 7) = Storage_set "k" (VNum 7)).
Proof.
  intros s m.
  apply (facade_message_determines_call wallet_env wallet_env 1000 1000
           (Storage_set "k" (VNum 7)) (Storage_set "k" (VNum 7)) s s m m);
    reflexivity.
Defined.

Example facade_calls_in_one_tick :
  let s := run wallet_env
             (ChainAccess.switchNetwork wallet_env 1000 "base"
                (UserAccess.getProfile wallet_env 1000 123
                   (constructor wallet_env)))
             [EvMessage (from_window 0 "https://wallet.frontiertower.io"
                           (response_msg "1000-1" VUndefined));
              EvMessage (from_window 0 "https://wallet.frontiertower.io"
                           (error_msg "1000-0" "Profile not found"))] in
  sent_ids s = ["1000-0"; "1000-1"]
  ∧ outcome 0 s = Some (Rejected (mkError "Profile not found"))
  ∧ outcome 1 s = Some (Resolved VUndefined).
Proof. vm_compute. done. Qed.

(** ** The identifier as an encoding *)

(** X15.  The identifier is an injective encoding of the time stamp and
    the counter: two identifiers are equal only if [Date.now()] read the
    same and the counter had the same value, also for time stamps before
    1970, whose text starts with a dash. *)
Theorem request_id_determines_time_and_counter now now' s s' :
  next_id now s = next_id now' s' →
  now = now' ∧ requestId s = requestId s'.
Proof. unfold next_id. apply mkId_inj. Qed.

Lemma request_id_determines_time_and_counter_witness :
  let s := constructor wallet_env in (-5 = -5)%Z ∧ requestId s = requestId s.
Proof.
  intros s. apply (request_id_determines_time_and_counter (-5) (-5) s s).
  reflexivity.
Defined.

Example negative_time_stamp : mkId (-5) 3 = "-5-3" ∧ mkId 5 3 ≠ mkId (-5) 3.
Proof. split; [reflexivity|]. intros [? _]%mkId_inj. done. Qed.

(** ** Exceptions of the embedding check *)

(** X16.  The origin comparing [isInFrontierApp] throws in one situation
    only: the window is framed, the referrer is not empty and [new URL]
    rejects it, so that the [catch] block fails like the [try] block did.
    In every other context it returns a boolean; in particular it returns
    false when the parent's location cannot be read and there is no
    referrer. *)
Theorem isInFrontierApp_throws_iff env :
  (Detection.isInFrontierApp env = Throw
   ↔ parent env ≠ self env ∧ referrer env ≠ ""
     ∧ URL_origin env (referrer env) = Throw)
  ∧ (parent env ≠ self env → referrer env = "" →
     parent_location_origin env = Throw →
     Detection.isInFrontierApp env = Return false).
Proof.
  unfold Detection.isInFrontierApp, Detection.isInFrontierApp_try.
  destruct (decide (parent env = self env)) as [Hpar|Hpar].
  { rewrite bool_decide_eq_true_2 by done. split; [split; [done|tauto]|done]. }
  rewrite bool_decide_eq_false_2 by done.
  destruct (truthy_cases (referrer env)) as [[Href ->]|[Href ->]]; cbn [bind].
  - split.
    + destruct (parent_location_origin env) as [po|]; cbn [bind].
      * destruct (_ && _); split; try done; tauto.
      * split; [done|tauto].
    + intros _ _ ->. done.
  - split; [|done].
    destruct (URL_origin env (referrer env)) as [o|]; cbn [bind].
    + destruct (_ && _); [split; [done|by intros (_ & _ & ?)]|].
      destruct (parent_location_origin env) as [po|]; cbn [bind].
      * destruct (_ && _); split; try done; by intros (_ & _ & ?).
      * split; [done|by intros (_ & _ & ?)].
    + split; [done|]. by intros _.
Qed.

Lemma isInFrontierApp_throws_iff_witness :
  Detection.isInFrontierApp
    {| self := 1; parent := 0; top := 0; referrer := "";
       URL_origin := sample_origin; parent_location_origin := Throw |}
  = Return false.
Proof.
  apply (proj2 (isInFrontierApp_throws_iff
           {| self := 1; parent := 0; top := 0; referrer := "";
              URL_origin := sample_origin; parent_location_origin := Throw |}));
    [discriminate|reflexivity|reflexivity].
Defined.
